(** * MemPoolsAlloc: a shallow embedding of [MemPoolsAllocator/MemPoolsAlloc.h]

    The header implements a chain of fixed-block-size memory pools.  Each
    [Pool] owns an arena of [block_counter] blocks of [block_size] bytes and
    a bitmap [used_blocks] with one bit per block (most significant bit of a
    byte first).  [MemPoolList] links pools through [next_pool] and probes
    them in order.

    Conventions of the embedding:
    - [size_t] is a 64-bit unsigned integer: a [Z] with the wrap-around
      [wrap] written at every arithmetic operation of the source;
    - a pointer is its address, a [Z]; [nullptr] is [0];
    - the bitmap buffer is the list of its [char] values; whether plain
      [char] is signed is implementation-defined, so the development is
      parametrised by [char_signed] and every result holds for both;
    - a call ends in an [outcome]: a normal return, a thrown
      [std::bad_alloc], a failed [assert], or undefined behaviour (a read
      outside the bitmap buffer, a division by zero). *)

From Stdlib Require Import ZArith Lia Bool Zquot.
From stdpp Require Import base list.
Local Open Scope Z_scope.

(** ** Machine integers *)

Definition size_t_mod : Z := 2 ^ 64.

(** Arithmetic on [size_t] is modulo [2^64]. *)
Definition wrap (x : Z) : Z := x mod size_t_mod.

(** [const size_t kByte = 8;] *)
Definition kByte : Z := 8.

(** Conversion of an [int] to [uint8_t]. *)
Definition to_uint8 (x : Z) : Z := x mod 256.

(** ** Outcomes of a call *)

Inductive outcome (S A : Type) : Type :=
| Ok (a : A) (s : S)      (* normal return with value [a], final state [s] *)
| BadAlloc (s : S)        (* [throw std::bad_alloc{}], state at the throw *)
| AssertFail              (* an [assert] failed: the process aborts *)
| Undefined               (* undefined behaviour *)
| OutOfFuel.              (* the loop bound of the model was reached *)

Arguments Ok {S A} a s.
Arguments BadAlloc {S A} s.
Arguments AssertFail {S A}.
Arguments Undefined {S A}.
Arguments OutOfFuel {S A}.

Definition bind {S A B : Type} (m : S -> outcome S A) (k : A -> S -> outcome S B)
  : S -> outcome S B :=
  fun s =>
    match m s with
    | Ok a s' => k a s'
    | BadAlloc s' => BadAlloc s'
    | AssertFail => AssertFail
    | Undefined => Undefined
    | OutOfFuel => OutOfFuel
    end.

Notation "'let*' x ':=' m 'in' k" := (bind m (fun x => k))
  (at level 10, x name, m at level 100, k at level 200, only parsing).

(** The outcome of an operation on one pool, seen from the chain that holds
    the pool: [lift_state f] rebuilds the chain around the pool's state. *)
Definition lift_state {S T A : Type} (f : S -> T) (o : outcome S A) : outcome T A :=
  match o with
  | Ok a s => Ok a (f s)
  | BadAlloc s => BadAlloc (f s)
  | AssertFail => AssertFail
  | Undefined => Undefined
  | OutOfFuel => OutOfFuel
  end.

(** ** class Pool *)

Record Pool : Type := mkPool {
  block_size : Z;
  block_counter : Z;
  blocks_free_num : Z;
  free_block : Z;
  mem_pointer : Z;
  used_blocks : list Z
}.

Definition set_blocks_free_num (v : Z) (p : Pool) : Pool :=
  mkPool (block_size p) (block_counter p) v (free_block p) (mem_pointer p) (used_blocks p).

Definition set_free_block (v : Z) (p : Pool) : Pool :=
  mkPool (block_size p) (block_counter p) (blocks_free_num p) v (mem_pointer p) (used_blocks p).

Definition set_used_blocks (v : list Z) (p : Pool) : Pool :=
  mkPool (block_size p) (block_counter p) (blocks_free_num p) (free_block p) (mem_pointer p) v.

(** [bool Pool::find(void* pointer_) const] *)
Definition find (pointer_ : Z) (p : Pool) : bool :=
  (mem_pointer p <=? pointer_)
  && (pointer_ <? mem_pointer p + wrap (block_size p * block_counter p)).

(** The test [(used_blocks[cur_block_idx] >> (kByte - 1 - right % kByte)) % 2]
    of [get_blocks], converted to [bool]: [>>] on the promoted [char] is an
    arithmetic shift and [%] truncates towards zero. *)
Definition in_use (c : Z) (idx : Z) : bool :=
  negb (Z.rem (Z.shiftr c (kByte - 1 - idx mod kByte)) 2 =? 0).

(** The inner [while (right - left + 1 <= n && ok)] of [get_blocks]; the
    loop state is the triple of the locals [(i, right, ok)]. *)
Fixpoint get_blocks_while (fuel : nat) (ub : list Z) (left n : Z)
    (i right : Z) (ok : bool) : outcome (Z * Z * bool) unit :=
  match fuel with
  | O => OutOfFuel
  | S fuel' =>
    if (wrap (right - left + 1) <=? n) && ok then
      let cur_block_idx := right / kByte in
      match ub !! Z.to_nat cur_block_idx with
      | None => Undefined
      | Some c =>
        let in_use_right := in_use c right in
        if in_use_right
        then get_blocks_while fuel' ub left n right (wrap (right + 1)) false
        else get_blocks_while fuel' ub left n i (wrap (right + 1)) ok
      end
    else Ok tt (i, right, ok)
  end.

(** A bound on the number of iterations of either loop of [get_blocks]:
    every iteration reads a fresh bit of the bitmap. *)
Definition scan_fuel (ub : list Z) : nat := S (8 * length ub).

(** The outer [for (size_t i = free_block; i + n <= block_counter; ++i)]. *)
Fixpoint get_blocks_for (fuel : nat) (n i : Z) (p : Pool) : outcome Pool Z :=
  match fuel with
  | O => OutOfFuel
  | S fuel' =>
    if wrap (i + n) <=? block_counter p then
      let left := i in
      let right := i in
      match get_blocks_while (scan_fuel (used_blocks p)) (used_blocks p) left n i right true with
      | Ok _ (i1, right1, ok1) =>
        let right2 := wrap (right1 - 1) in
        if (wrap (right2 - left + 1) =? n) && ok1 then
          let p' := if i1 =? free_block p
                    then set_free_block (wrap (left + n)) p else p in
          Ok left p'
        else get_blocks_for fuel' n (wrap (i1 + 1)) p
      | BadAlloc _ => BadAlloc p
      | AssertFail => AssertFail
      | Undefined => Undefined
      | OutOfFuel => OutOfFuel
      end
    else Ok (block_counter p) p
  end.

(** [size_t Pool::get_blocks(size_t n)] *)
Definition get_blocks (n : Z) (p : Pool) : outcome Pool Z :=
  get_blocks_for (scan_fuel (used_blocks p)) n (free_block p) p.

(** A counted loop [for (size_t i = idx_; i < bound; ++i) body], with
    [bound] not changed by the body: it runs [bound - idx_] times. *)
Fixpoint for_range (count : nat) (i : Z) (body : Z -> Pool -> outcome Pool unit)
    (p : Pool) : outcome Pool unit :=
  match count with
  | O => Ok tt p
  | S count' =>
    match body i p with
    | Ok _ p' => for_range count' (wrap (i + 1)) body p'
    | e => e
    end
  end.

(** [Pool::Pool(size_t block_size_, size_t block_counter_)].  The two
    addresses are what [std::malloc] returned for the arena and for the
    bitmap ([0] when it failed); the bitmap is zero-filled. *)
Definition Pool_ctor (block_size_ block_counter_ : Z) (malloc_mem malloc_used : Z)
  : outcome Pool unit :=
  if malloc_mem =? 0 then AssertFail
  else
    let used_blocks_size := wrap (1 + wrap (block_counter_ - 1) / kByte) in
    if malloc_used =? 0 then AssertFail
    else Ok tt (mkPool block_size_ block_counter_ block_counter_ 0 malloc_mem
                       (replicate (Z.to_nat used_blocks_size) 0)).

Section CharSignedness.

(** Whether plain [char] is a signed type on the target. *)
Variable char_signed : bool.

(** Conversion of an [int] to [char]. *)
Definition to_char (x : Z) : Z :=
  let r := x mod 256 in
  if char_signed && (128 <=? r) then r - 256 else r.

(** The body of the loop of [use_blocks]. *)
Definition use_blocks_body (i : Z) (p : Pool) : outcome Pool unit :=
  let cur_block_idx := i / kByte in
  let order := kByte - 1 - i mod kByte in
  match used_blocks p !! Z.to_nat cur_block_idx with
  | None => Undefined
  | Some c =>
    if Z.rem (Z.shiftr c order) 2 =? 1 then AssertFail
    else
      let mask := to_char (Z.shiftl 1 order) in
      let p1 := set_used_blocks
                  (<[Z.to_nat cur_block_idx := to_char (Z.lor c mask)]> (used_blocks p)) p in
      Ok tt (set_blocks_free_num (wrap (blocks_free_num p1 - 1)) p1)
  end.

(** [void Pool::use_blocks(size_t idx_, size_t n)] *)
Definition use_blocks (idx_ n : Z) (p : Pool) : outcome Pool unit :=
  for_range (Z.to_nat (wrap (idx_ + n) - idx_)) idx_ use_blocks_body p.

(** The body of the loop of [free_blocks]. *)
Definition free_blocks_body (i : Z) (p : Pool) : outcome Pool unit :=
  let cur_block_idx := i / kByte in
  let order := kByte - 1 - i mod kByte in
  let mask := 255 in
  let mask_2 := to_uint8 (Z.shiftl 1 order) in
  let mask := to_uint8 (Z.lxor mask_2 mask) in
  match used_blocks p !! Z.to_nat cur_block_idx with
  | None => Undefined
  | Some c =>
    Ok tt (set_used_blocks
             (<[Z.to_nat cur_block_idx := to_char (Z.land c mask)]> (used_blocks p)) p)
  end.

(** [void Pool::free_blocks(size_t idx_, size_t n)] *)
Definition free_blocks (idx_ n : Z) (p : Pool) : outcome Pool unit :=
  match for_range (Z.to_nat (wrap (idx_ + n) - idx_)) idx_ free_blocks_body p with
  | Ok _ p1 =>
    let p2 := if idx_ <? free_block p1 then set_free_block idx_ p1 else p1 in
    Ok tt (set_blocks_free_num (wrap (blocks_free_num p2 + n)) p2)
  | e => e
  end.

(** [void* Pool::allocate(size_t bytes_)]; dividing by a zero [block_size]
    is undefined. *)
Definition allocate (bytes_ : Z) (p : Pool) : outcome Pool Z :=
  if block_size p =? 0 then Undefined
  else
    let number_of_blocks := wrap (1 + wrap (bytes_ - 1) / block_size p) in
    (let* idx_ := get_blocks number_of_blocks in
     fun p1 =>
       if block_counter p1 <=? idx_ then Ok 0 p1
       else
         (let* _u := use_blocks idx_ number_of_blocks in
          fun p2 => Ok (mem_pointer p2 + wrap (idx_ * block_size p2)) p2) p1) p.

(** [void Pool::deallocate(void* pointer_, size_t bytes_)] *)
Definition deallocate (pointer_ bytes_ : Z) (p : Pool) : outcome Pool unit :=
  if pointer_ =? 0 then BadAlloc p
  else if block_size p =? 0 then Undefined
  else
    let blocks_to_deallocate := wrap (1 + wrap (bytes_ - 1) / block_size p) in
    let d := wrap (pointer_ - mem_pointer p) in
    let block_number := d / block_size p in
    free_blocks block_number blocks_to_deallocate p.

(** ** class MemPoolList

    The chain is the list of its pools in [next_pool] order, [head] first. *)

(** [void* MemPoolList::allocate(size_t bytes)] *)
Fixpoint MemPoolList_allocate (bytes : Z) (chain : list Pool) : outcome (list Pool) Z :=
  match chain with
  | [] => BadAlloc []
  | pool :: rest =>
    if (bytes <=? wrap (blocks_free_num pool * block_size pool))
       && negb (blocks_free_num pool =? 0)
    then
      match allocate bytes pool with
      | Ok pointer pool' =>
        if negb (pointer =? 0) then Ok pointer (pool' :: rest)
        else lift_state (cons pool') (MemPoolList_allocate bytes rest)
      | e => lift_state (fun pool' => pool' :: rest) e
      end
    else lift_state (cons pool) (MemPoolList_allocate bytes rest)
  end.

(** [void MemPoolList::deallocate(void* pointer, size_t bytes)] *)
Fixpoint MemPoolList_deallocate (pointer bytes : Z) (chain : list Pool)
  : outcome (list Pool) unit :=
  match chain with
  | [] => Ok tt []
  | pool :: rest =>
    if find pointer pool
    then lift_state (fun pool' => pool' :: rest) (deallocate pointer bytes pool)
    else lift_state (cons pool) (MemPoolList_deallocate pointer bytes rest)
  end.

(** ** Vocabulary of the specification *)

(** Block [k] is occupied: bit [k] of the bitmap is set.  A block outside
    the bitmap buffer counts as not occupied. *)
Definition used (ub : list Z) (k : Z) : bool :=
  match ub !! Z.to_nat (k / kByte) with
  | Some c => in_use c k
  | None => false
  end.

(** The number of zero bits among the first [m] bits of the bitmap. *)
Fixpoint zero_bits (ub : list Z) (m : nat) : Z :=
  match m with
  | O => 0
  | S m' => zero_bits ub m' + (if used ub (Z.of_nat m') then 0 else 1)
  end.

(** Blocks [s .. s+n-1] are all free. *)
Definition free_run (ub : list Z) (s n : Z) : Prop :=
  forall k, s <= k < s + n -> used ub k = false.

(** Blocks [s .. s+n-1] are all occupied. *)
Definition used_run (ub : list Z) (s n : Z) : Prop :=
  forall k, s <= k < s + n -> used ub k = true.

(** [number_of_blocks] as [allocate] and [deallocate] compute it. *)
Definition number_of_blocks (bs bytes_ : Z) : Z :=
  wrap (1 + wrap (bytes_ - 1) / bs).

(** [ceil(byte_count / block_size)], the block count in the words of the
    specification. *)
Definition ceil_div (bytes_ bs : Z) : Z := (bytes_ + bs - 1) / bs.

(** A configuration pair the constructor can serve: positive sizes, and an
    arena of [block_size * block_counter] bytes that is an object, so its
    size is at most [PTRDIFF_MAX]. *)
Definition valid_config (bs bc : Z) : Prop :=
  0 < bs /\ 0 < bc /\ bs * bc < 2 ^ 63.

(** The invariant of a pool. *)
Record pool_ok (p : Pool) : Prop := {
  ok_config : valid_config (block_size p) (block_counter p);
  ok_length : length (used_blocks p) = Z.to_nat (1 + (block_counter p - 1) / 8);
  ok_hint_range : 0 <= free_block p <= block_counter p;
  ok_hint : used_run (used_blocks p) 0 (free_block p);
  ok_count : blocks_free_num p = zero_bits (used_blocks p) (Z.to_nat (block_counter p));
  ok_mem : 0 < mem_pointer p
}.

(** The block index [deallocate] derives from a pointer. *)
Definition block_number (p : Pool) (pointer_ : Z) : Z :=
  wrap (pointer_ - mem_pointer p) / block_size p.

(** A live allocation [(pointer, bytes)]: the pointer is the address of a
    block, and the blocks of the allocation are inside the pool and
    occupied. *)
Definition live_alloc (p : Pool) (a : Z * Z) : Prop :=
  let idx := block_number p (fst a) in
  let n := number_of_blocks (block_size p) (snd a) in
  fst a = mem_pointer p + idx * block_size p /\
  0 <= idx /\ 0 <= n /\ idx + n <= block_counter p /\
  used_run (used_blocks p) idx n.

(** Block [k] belongs to the allocation [a]. *)
Definition owns_block (p : Pool) (a : Z * Z) (k : Z) : Prop :=
  block_number p (fst a) <= k
  < block_number p (fst a) + number_of_blocks (block_size p) (snd a).

(** The live allocations of a pool are pairwise disjoint. *)
Inductive live_ok (p : Pool) : list (Z * Z) -> Prop :=
| live_nil : live_ok p []
| live_cons a l :
    live_alloc p a ->
    (forall b k, In b l -> owns_block p a k -> owns_block p b k -> False) ->
    live_ok p l ->
    live_ok p (a :: l).

(** Pool states reachable by valid use, with the allocations that are live:
    the pool is constructed from a valid configuration, every [allocate]
    returns (a pointer or [nullptr]), and every [deallocate] releases a live
    allocation with the byte count it was allocated with. *)
Inductive reachable : Pool -> list (Z * Z) -> Prop :=
| reach_ctor bs bc m u p :
    valid_config bs bc -> 0 < m ->
    Pool_ctor bs bc m u = Ok tt p ->
    reachable p []
| reach_allocate p l bytes_ pointer_ p' :
    reachable p l -> 0 <= bytes_ < size_t_mod ->
    allocate bytes_ p = Ok pointer_ p' -> pointer_ <> 0 ->
    reachable p' ((pointer_, bytes_) :: l)
| reach_allocate_none p l bytes_ p' :
    reachable p l -> 0 <= bytes_ < size_t_mod ->
    allocate bytes_ p = Ok 0 p' ->
    reachable p' l
| reach_deallocate p l1 l2 pointer_ bytes_ p' :
    reachable p (l1 ++ (pointer_, bytes_) :: l2) ->
    deallocate pointer_ bytes_ p = Ok tt p' ->
    reachable p' (l1 ++ l2).

(** ** Further vocabulary: frames, runs, valid use as a list of operations,
    and the pools of the examples (written out for a target with signed
    [char]; each is reached by the operations named with it) *)

(** What an operation never changes: the configuration, the arena and the
    size of the bitmap buffer. *)
Definition same_frame (p p' : Pool) : Prop :=
  block_size p' = block_size p /\ block_counter p' = block_counter p /\
  mem_pointer p' = mem_pointer p /\
  length (used_blocks p') = length (used_blocks p).

(** Block [k] lies in [i .. i+n-1]. *)
Definition in_range (i n k : Z) : bool := (i <=? k) && (k <? i + n).

(** The pool after a successful search that started a run at [s]. *)
Definition advance_hint (n s : Z) (p : Pool) : Pool :=
  if s =? free_block p then set_free_block (wrap (s + n)) p else p.

(** No start in [a .. b-1] begins a run of [n] free blocks. *)
Definition no_run (ub : list Z) (n a b : Z) : Prop :=
  forall s, a <= s < b -> ~ free_run ub s n.

(** The pool has a run of [n] free blocks. *)
Definition has_run (p : Pool) (n : Z) : Prop :=
  exists s, 0 <= s /\ s + n <= block_counter p /\ free_run (used_blocks p) s n.

(** Block [s] starts the lowest-indexed run of [n] free blocks of the pool. *)
Definition lowest_run (p : Pool) (n s : Z) : Prop :=
  0 <= s /\ s + n <= block_counter p /\ free_run (used_blocks p) s n /\
  forall s', 0 <= s' < s -> ~ free_run (used_blocks p) s' n.

(** The pre-filter of [MemPoolList::allocate]. *)
Definition block_fits (bytes : Z) (pool : Pool) : bool :=
  (bytes <=? wrap (blocks_free_num pool * block_size pool))
  && negb (blocks_free_num pool =? 0).

(** The public operations of a pool. *)
Inductive operation : Type :=
| OpAllocate (bytes_ : Z)
| OpDeallocate (pointer_ bytes_ : Z).

(** The first occurrence of an allocation is taken out of the live ones. *)
Fixpoint remove_live (a : Z * Z) (l : list (Z * Z)) : option (list (Z * Z)) :=
  match l with
  | [] => None
  | b :: l' =>
    if (fst a =? fst b) && (snd a =? snd b) then Some l'
    else option_map (cons b) (remove_live a l')
  end.

(** Runs the operations on a pool with its live allocations; [None] when an
    operation is not valid use or does not return. *)
Fixpoint run (ops : list operation) (p : Pool) (l : list (Z * Z))
  : option (Pool * list (Z * Z)) :=
  match ops with
  | [] => Some (p, l)
  | OpAllocate bytes_ :: ops' =>
    if (0 <=? bytes_) && (bytes_ <? size_t_mod) then
      match allocate bytes_ p with
      | Ok pointer_ p' =>
        if pointer_ =? 0 then run ops' p' l else run ops' p' ((pointer_, bytes_) :: l)
      | _ => None
      end
    else None
  | OpDeallocate pointer_ bytes_ :: ops' =>
    match remove_live (pointer_, bytes_) l with
    | Some l' =>
      match deallocate pointer_ bytes_ p with
      | Ok _ p' => run ops' p' l'
      | _ => None
      end
    | None => None
    end
  end.

(** A pool is constructed and the operations are run on it. *)
Definition scenario (bs bc m u : Z) (ops : list operation) : option (Pool * list (Z * Z)) :=
  match Pool_ctor bs bc m u with
  | Ok _ p => run ops p []
  | _ => None
  end.

(** A pool of blocks of at least two bytes whose arena size is
    representable and whose hint is inside the pool. *)
Definition zero_ok (q : Pool) : Prop :=
  2 <= block_size q /\ 0 <= block_counter q /\
  block_size q * block_counter q < 2 ^ 64 /\
  0 <= free_block q <= block_counter q.

(** [Pool(16, 8)], all free. *)
Definition fresh_pool : Pool := mkPool 16 8 8 0 4096 [0].

(** [Pool(16, 8)] after [allocate(33)]: blocks 0..2 occupied. *)
Definition pool_after_allocate : Pool := mkPool 16 8 5 3 4096 [-32].

(** [Pool(16, 6)] with blocks [free, free, occupied, free, free, free]:
    after [allocate(32)], [allocate(16)], [deallocate(4096, 32)]. *)
Definition first_fit_pool : Pool := mkPool 16 6 5 0 4096 [32].

(** [Pool(1, 8)] with blocks 0 and 1 occupied and the hint at 1: after
    [allocate(1)], [allocate(1)], [deallocate(4096, 1)], [allocate(1)]. *)
Definition stale_hint_pool : Pool := mkPool 1 8 6 1 4096 [-64].

(** [Pool(1, 2)], fully occupied, with the hint at 1: after the same four
    operations. *)
Definition full_stale_pool : Pool := mkPool 1 2 0 1 4096 [-64].

(** [Pool(1, 8)], fully occupied by [allocate(8)]. *)
Definition full_byte_pool : Pool := mkPool 1 8 0 8 4096 [-1].

(** [Pool(16, 4)], fully occupied by [allocate(64)]. *)
Definition full_pool : Pool := mkPool 16 4 0 4 4096 [-16].

(** [Pool(16, 4)] with blocks [occupied, free, occupied, free]: after four
    [allocate(16)], [deallocate(4112, 16)], [deallocate(4144, 16)]. *)
Definition fragmented_pool : Pool := mkPool 16 4 2 1 4096 [-96].

(** [Pool(32, 2)], all free, at another address. *)
Definition later_pool : Pool := mkPool 32 2 2 0 16384 [0].

(** [Pool(2^63, 2)], as constructed: its arena size wraps to 0. *)
Definition wrapped_arena_pool : Pool := mkPool (2 ^ 63) 2 2 0 4096 [0].

(** ** Vocabulary of the further properties *)

(** The address lies in the arena of the pool. *)
Definition in_arena (p : Pool) (addr : Z) : Prop :=
  mem_pointer p <= addr < mem_pointer p + block_size p * block_counter p.


(** Two pool states with the same configuration and arena, the same free
    count and the same occupancy of every block. *)
Definition same_content (p q : Pool) : Prop :=
  same_frame p q /\ blocks_free_num q = blocks_free_num p /\
  forall k, 0 <= k -> used (used_blocks q) k = used (used_blocks p) k.

(** The arenas of the pools of a chain are pairwise disjoint. *)
Definition arenas_disjoint (chain : list Pool) : Prop :=
  forall i j p q addr,
    i <> j -> chain !! i = Some p -> chain !! j = Some q ->
    in_arena p addr -> in_arena q addr -> False.

(** The chain passes over the pool: the pre-filter skips it, or its search
    returns the empty result. *)
Definition declines (bytes : Z) (A : Pool) : Prop :=
  block_fits bytes A = false \/ allocate bytes A = Ok 0 A.

(** ** The linked objects of [MemPoolList] and its constructor

    A [Pool] object in the free store is its state and its two link
    members; a [Pool*] is the index of the object, [nullptr] is [None]. *)
Record PoolNode : Type := mkNode {
  pool_state : Pool;
  next_pool : option nat;
  prev_pool : option nat
}.

(** [class MemPoolList]: the free store of its [Pool] objects, [head] and
    [tail]. *)
Record MemPoolList : Type := mkMemPoolList {
  nodes : list PoolNode;
  head : option nat;
  tail : option nat
}.

(** [new Pool(block_size_, block_counter_)]: the constructor runs with the
    two addresses [malloc] returns for this object, the object is added to
    the free store with [next_pool = prev_pool = nullptr]. *)
Definition new_Pool (mallocs : nat -> Z * Z) (bs bc : Z) (store : list PoolNode)
  : outcome (list PoolNode) nat :=
  match Pool_ctor bs bc (fst (mallocs (length store))) (snd (mallocs (length store))) with
  | Ok _ p => Ok (length store) (store ++ [mkNode p None None])
  | BadAlloc _ => BadAlloc store
  | AssertFail => AssertFail
  | Undefined => Undefined
  | OutOfFuel => OutOfFuel
  end.

(** [i->next_pool = v;] *)
Definition set_next_pool (i : nat) (v : option nat) (store : list PoolNode)
  : outcome (list PoolNode) unit :=
  match store !! i with
  | Some nd => Ok tt (<[i := mkNode (pool_state nd) v (prev_pool nd)]> store)
  | None => Undefined
  end.

(** [i->prev_pool = v;] *)
Definition set_prev_pool (i : nat) (v : option nat) (store : list PoolNode)
  : outcome (list PoolNode) unit :=
  match store !! i with
  | Some nd => Ok tt (<[i := mkNode (pool_state nd) (next_pool nd) v]> store)
  | None => Undefined
  end.

(** The loop [for (auto pool_cfg: list_)] of the constructor; it returns
    the locals [(prev, last)]. *)
Fixpoint ctor_loop (mallocs : nat -> Z * Z) (size : Z) (cfgs : list (Z * Z))
    (counter : Z) (prev last : nat) : list PoolNode -> outcome (list PoolNode) (nat * nat) :=
  match cfgs with
  | [] => Ok (prev, last)
  | pool_cfg :: cfgs' =>
    if negb (counter =? 0) && negb (counter =? wrap (size - 1)) then
      let* current := new_Pool mallocs (fst pool_cfg) (snd pool_cfg) in
      let* _u := set_next_pool prev (Some current) in
      let* _v := set_prev_pool current (Some prev) in
      ctor_loop mallocs size cfgs' (wrap (counter + 1)) current current
    else ctor_loop mallocs size cfgs' (wrap (counter + 1)) prev last
  end.

(** [MemPoolList::MemPoolList(std::vector<std::pair<size_t, size_t>>& list_)];
    [list_.begin()->first] on an empty vector is undefined. *)
Definition MemPoolList_ctor (mallocs : nat -> Z * Z) (list_ : list (Z * Z))
  : outcome MemPoolList unit :=
  match list_ with
  | [] => Undefined
  | first :: _ =>
    let size := Z.of_nat (length list_) in
    let back := List.last list_ first in
    match
      (let* head := new_Pool mallocs (fst first) (snd first) in
       let* tail := (if 1 <? size then new_Pool mallocs (fst back) (snd back)
                     else Ok head) in
       let* locals := ctor_loop mallocs size list_ 0 head head in
       let* _u := (if 1 <? size
                   then (let* _v := set_next_pool (snd locals) (Some tail) in
                         set_prev_pool tail (Some (snd locals)))
                   else Ok tt) in
       Ok (head, tail)) []
    with
    | Ok (head, tail) store => Ok tt (mkMemPoolList store (Some head) (Some tail))
    | BadAlloc _ => BadAlloc (mkMemPoolList [] None None)
    | AssertFail => AssertFail
    | Undefined => Undefined
    | OutOfFuel => OutOfFuel
    end
  end.

(** The walk [pool = head; while (pool != nullptr) pool = pool->next_pool]
    of [allocate], [deallocate] and the destructor: the pools it visits. *)
Fixpoint chain_from (fuel : nat) (store : list PoolNode) (cur : option nat)
  : option (list Pool) :=
  match cur with
  | None => Some []
  | Some i =>
    match fuel with
    | O => None
    | S fuel' =>
      match store !! i with
      | Some nd => option_map (cons (pool_state nd)) (chain_from fuel' store (next_pool nd))
      | None => None
      end
    end
  end.

(** The same walk along [prev_pool]. *)
Fixpoint chain_back (fuel : nat) (store : list PoolNode) (cur : option nat)
  : option (list Pool) :=
  match cur with
  | None => Some []
  | Some i =>
    match fuel with
    | O => None
    | S fuel' =>
      match store !! i with
      | Some nd => option_map (cons (pool_state nd)) (chain_back fuel' store (prev_pool nd))
      | None => None
      end
    end
  end.

(** The chain of a list: the pools in [next_pool] order from [head]. *)
Definition chain_of (l : MemPoolList) : option (list Pool) :=
  chain_from (length (nodes l)) (nodes l) (head l).

(** The objects [idxs] are linked in this order after [prev] and hold the
    pools [ps]. *)
Fixpoint linked (store : list PoolNode) (prev : option nat) (idxs : list nat)
    (ps : list Pool) : Prop :=
  match idxs, ps with
  | [], [] => True
  | i :: idxs', p :: ps' =>
    store !! i = Some (mkNode p (List.hd_error idxs') prev) /\
    linked store (Some i) idxs' ps'
  | _, _ => False
  end.

(** The pool was constructed from the configuration pair. *)
Definition constructed_from (mallocs : nat -> Z * Z) (cfg : Z * Z) (p : Pool) : Prop :=
  exists k, Pool_ctor (fst cfg) (snd cfg) (fst (mallocs k)) (snd (mallocs k)) = Ok tt p.

(** ** The allocator adapter [Allocator_<T>], for [sizeof(T) = size_of_T] *)

(** [pointer Allocator_::allocate(size_type n)] *)
Definition Allocator_allocate (size_of_T n : Z) (memory_list : list Pool)
  : outcome (list Pool) Z :=
  MemPoolList_allocate (wrap (n * size_of_T)) memory_list.

(** [void Allocator_::deallocate(pointer p, size_type n)] *)
Definition Allocator_deallocate (size_of_T p n : Z) (memory_list : list Pool)
  : outcome (list Pool) unit :=
  MemPoolList_deallocate p (wrap (n * size_of_T)) memory_list.

(** The [malloc] results of the examples: object [k] gets the arena at
    [4096 * (k + 1)] and its bitmap 2048 bytes above. *)
Definition example_mallocs (k : nat) : Z * Z :=
  (4096 * (Z.of_nat k + 1), 4096 * (Z.of_nat k + 1) + 2048).

(** ** Bits of a [char] *)

Lemma in_use_testbit c k : in_use c k = Z.testbit c (7 - k mod 8).
Proof.
  unfold in_use, kByte. rewrite Z.testbit_odd, Zodd_rem. reflexivity.
Qed.

Lemma to_char_mod x : to_char x mod 256 = x mod 256.
Proof.
  unfold to_char. destruct (char_signed && (128 <=? x mod 256)).
  - replace (x mod 256 - 256) with (x mod 256 + (-1) * 256) by lia.
    rewrite Z.mod_add by lia. apply Z.mod_mod. lia.
  - apply Z.mod_mod. lia.
Qed.

Lemma testbit_mod256 x j : 0 <= j < 8 -> Z.testbit (x mod 256) j = Z.testbit x j.
Proof.
  intros Hj. change 256 with (2 ^ 8). apply Z.mod_pow2_bits_low. lia.
Qed.

Lemma to_char_bits x j : 0 <= j < 8 -> Z.testbit (to_char x) j = Z.testbit x j.
Proof.
  intros Hj. rewrite <- (testbit_mod256 (to_char x)) by assumption.
  rewrite to_char_mod. apply testbit_mod256. assumption.
Qed.

Lemma to_uint8_bits x j : 0 <= j < 8 -> Z.testbit (to_uint8 x) j = Z.testbit x j.
Proof. apply testbit_mod256. Qed.

Lemma testbit_one_shl o j : 0 <= o -> 0 <= j -> Z.testbit (Z.shiftl 1 o) j = (j =? o).
Proof.
  intros Ho Hj. rewrite Z.shiftl_1_l, Z.pow2_bits_eqb by assumption.
  apply Z.eqb_sym.
Qed.

Lemma order_range k : 0 <= 7 - k mod 8 < 8.
Proof. pose proof (Z.mod_pos_bound k 8). lia. Qed.

Lemma order_eqb i k : (7 - k mod 8 =? 7 - i mod 8) = (k mod 8 =? i mod 8).
Proof.
  destruct (Z.eqb_spec (k mod 8) (i mod 8)) as [E|E].
  - rewrite E. apply Z.eqb_refl.
  - apply Z.eqb_neq. lia.
Qed.

(** The byte written by [use_blocks] for block [i], read for block [k]. *)
Lemma in_use_set c i k :
  in_use (to_char (Z.lor c (to_char (Z.shiftl 1 (kByte - 1 - i mod kByte))))) k
  = (k mod 8 =? i mod 8) || in_use c k.
Proof.
  unfold kByte. change (8 - 1) with 7.
  pose proof (order_range i). pose proof (order_range k).
  rewrite !in_use_testbit, to_char_bits, Z.lor_spec, to_char_bits by lia.
  rewrite testbit_one_shl, order_eqb by lia. apply orb_comm.
Qed.

(** The byte written by [free_blocks] for block [i], read for block [k]. *)
Lemma in_use_clear c i k :
  in_use (to_char (Z.land c
            (to_uint8 (Z.lxor (to_uint8 (Z.shiftl 1 (kByte - 1 - i mod kByte))) 255)))) k
  = negb (k mod 8 =? i mod 8) && in_use c k.
Proof.
  unfold kByte. change (8 - 1) with 7.
  pose proof (order_range i). pose proof (order_range k).
  rewrite !in_use_testbit, to_char_bits, Z.land_spec, to_uint8_bits by lia.
  rewrite Z.lxor_spec, to_uint8_bits, testbit_one_shl, order_eqb by lia.
  change 255 with (Z.ones 8). rewrite Z.ones_spec_low by lia.
  rewrite xorb_true_r. apply andb_comm.
Qed.

(** ** Bits of the bitmap *)

Lemma index_split k i : 0 <= k -> 0 <= i ->
  (k =? i) = (k / 8 =? i / 8) && (k mod 8 =? i mod 8).
Proof.
  intros Hk Hi.
  pose proof (Z.div_mod k 8). pose proof (Z.div_mod i 8).
  destruct (Z.eqb_spec k i) as [E|E].
  - subst. rewrite !Z.eqb_refl. reflexivity.
  - symmetry. apply andb_false_iff.
    destruct (Z.eqb_spec (k / 8) (i / 8)); [right | left; reflexivity].
    apply Z.eqb_neq. lia.
Qed.

Lemma used_insert (ub : list Z) i c' k :
  0 <= i -> 0 <= k -> (Z.to_nat (i / 8) < length ub)%nat ->
  used (<[Z.to_nat (i / kByte) := c']> ub) k
  = if k / 8 =? i / 8 then in_use c' k else used ub k.
Proof.
  intros Hi Hk Hlen. unfold used, kByte.
  destruct (Z.eqb_spec (k / 8) (i / 8)) as [E|E].
  - rewrite E, list_lookup_insert_eq by assumption. reflexivity.
  - rewrite list_lookup_insert_ne; [reflexivity|].
    pose proof (Z.div_pos k 8). pose proof (Z.div_pos i 8). lia.
Qed.

Lemma used_set (ub : list Z) i c k :
  0 <= i -> 0 <= k -> ub !! Z.to_nat (i / kByte) = Some c ->
  used (<[Z.to_nat (i / kByte) :=
            to_char (Z.lor c (to_char (Z.shiftl 1 (kByte - 1 - i mod kByte))))]> ub) k
  = (k =? i) || used ub k.
Proof.
  intros Hi Hk Hc. pose proof (lookup_lt_Some _ _ _ Hc) as Hlen.
  rewrite used_insert, in_use_set, (index_split k i) by assumption.
  destruct (Z.eqb_spec (k / 8) (i / 8)) as [E|E]; [|reflexivity].
  unfold used. unfold kByte in *. rewrite E, Hc. reflexivity.
Qed.

Lemma used_clear (ub : list Z) i c k :
  0 <= i -> 0 <= k -> ub !! Z.to_nat (i / kByte) = Some c ->
  used (<[Z.to_nat (i / kByte) :=
            to_char (Z.land c
              (to_uint8 (Z.lxor (to_uint8 (Z.shiftl 1 (kByte - 1 - i mod kByte))) 255)))]> ub) k
  = negb (k =? i) && used ub k.
Proof.
  intros Hi Hk Hc. pose proof (lookup_lt_Some _ _ _ Hc) as Hlen.
  rewrite used_insert, in_use_clear, (index_split k i) by assumption.
  destruct (Z.eqb_spec (k / 8) (i / 8)) as [E|E]; [|reflexivity].
  unfold used. unfold kByte in *. rewrite E, Hc. reflexivity.
Qed.

(** A block below [8 * length] has its bit inside the buffer. *)
Lemma lookup_bit (ub : list Z) k :
  0 <= k < 8 * Z.of_nat (length ub) ->
  exists c, ub !! Z.to_nat (k / kByte) = Some c.
Proof.
  intros Hk. apply lookup_lt_is_Some. unfold kByte.
  assert (k / 8 < Z.of_nat (length ub)) by (apply Z.div_lt_upper_bound; lia).
  pose proof (Z.div_pos k 8). lia.
Qed.

Lemma used_out_of_range (ub : list Z) k :
  8 * Z.of_nat (length ub) <= k -> used ub k = false.
Proof.
  intros Hk. unfold used, kByte. rewrite lookup_ge_None_2; [reflexivity|].
  assert (Z.of_nat (length ub) <= k / 8) by (apply Z.div_le_lower_bound; lia).
  lia.
Qed.

(** ** Counting free blocks *)

Lemma zero_bits_ext (ub ub' : list Z) m :
  (forall k, 0 <= k < Z.of_nat m -> used ub' k = used ub k) ->
  zero_bits ub' m = zero_bits ub m.
Proof.
  induction m as [|m IH]; intros H; cbn [zero_bits]; [reflexivity|].
  rewrite IH by (intros; apply H; lia). rewrite H by lia. reflexivity.
Qed.

Lemma zero_bits_range (ub : list Z) m : 0 <= zero_bits ub m <= Z.of_nat m.
Proof.
  induction m as [|m IH]; cbn [zero_bits]; [lia|].
  destruct (used ub (Z.of_nat m)); lia.
Qed.

(** Setting one bit that was clear. *)
Lemma zero_bits_set (ub ub' : list Z) i m :
  0 <= i -> used ub i = false ->
  (forall k, 0 <= k -> used ub' k = (k =? i) || used ub k) ->
  zero_bits ub' m = zero_bits ub m - (if i <? Z.of_nat m then 1 else 0).
Proof.
  intros Hi Hfree H. induction m as [|m IH]; cbn [zero_bits].
  - destruct (Z.ltb_spec i (Z.of_nat 0)); lia.
  - rewrite IH, H by lia.
    destruct (Z.eqb_spec (Z.of_nat m) i) as [E|E]; cbn [orb negb andb].
    + subst i. rewrite Hfree.
      destruct (Z.ltb_spec (Z.of_nat m) (Z.of_nat m));
        destruct (Z.ltb_spec (Z.of_nat m) (Z.of_nat (S m))); lia.
    + destruct (used ub (Z.of_nat m));
      destruct (Z.ltb_spec i (Z.of_nat m)); destruct (Z.ltb_spec i (Z.of_nat (S m))); lia.
Qed.

(** Clearing one bit that was set. *)
Lemma zero_bits_clear (ub ub' : list Z) i m :
  0 <= i -> used ub i = true ->
  (forall k, 0 <= k -> used ub' k = negb (k =? i) && used ub k) ->
  zero_bits ub' m = zero_bits ub m + (if i <? Z.of_nat m then 1 else 0).
Proof.
  intros Hi Hused H. induction m as [|m IH]; cbn [zero_bits].
  - destruct (Z.ltb_spec i (Z.of_nat 0)); lia.
  - rewrite IH, H by lia.
    destruct (Z.eqb_spec (Z.of_nat m) i) as [E|E]; cbn [orb negb andb].
    + subst i. rewrite Hused.
      destruct (Z.ltb_spec (Z.of_nat m) (Z.of_nat m));
        destruct (Z.ltb_spec (Z.of_nat m) (Z.of_nat (S m))); lia.
    + destruct (used ub (Z.of_nat m));
      destruct (Z.ltb_spec i (Z.of_nat m)); destruct (Z.ltb_spec i (Z.of_nat (S m))); lia.
Qed.

(** A run of free blocks is counted. *)
Lemma zero_bits_run (ub : list Z) s n m :
  0 <= s -> 0 <= n -> free_run ub s n -> s + n <= Z.of_nat m ->
  n <= zero_bits ub m.
Proof.
  intros Hs Hn Hrun Hm.
  assert (Hgen : Z.min (s + n) (Z.of_nat m) - s <= zero_bits ub m); [|lia].
  clear Hm. induction m as [|m IH]; cbn [zero_bits]; [lia|].
  pose proof (zero_bits_range ub m) as Hr.
  destruct (Z_lt_le_dec (Z.of_nat m) s) as [Hlt|Hge].
  - destruct (used ub (Z.of_nat m)); lia.
  - destruct (Z_lt_le_dec (Z.of_nat m) (s + n)) as [Hin|Hout].
    + rewrite (Hrun (Z.of_nat m)) by lia. lia.
    + destruct (used ub (Z.of_nat m)); lia.
Qed.

(** No free block is counted exactly when every block is occupied. *)
Lemma zero_bits_none (ub : list Z) m :
  zero_bits ub m = 0 <-> used_run ub 0 (Z.of_nat m).
Proof.
  induction m as [|m IH]; cbn [zero_bits].
  - split; [intros _ k Hk; lia | reflexivity].
  - pose proof (zero_bits_range ub m) as Hr. split.
    + intros H0 k Hk. destruct (used ub (Z.of_nat m)) eqn:E; [|lia].
      destruct (Z.eq_dec k (Z.of_nat m)) as [->|Hne]; [assumption|].
      apply IH; lia.
    + intros H. rewrite (H (Z.of_nat m)) by lia.
      assert (zero_bits ub m = 0); [|lia].
      apply IH. intros k Hk. apply H. lia.
Qed.

(** ** The counted loops of [use_blocks] and [free_blocks] *)

Lemma wrap_small x : 0 <= x < size_t_mod -> wrap x = x.
Proof. intros H. unfold wrap. apply Z.mod_small. assumption. Qed.

Lemma wrap_range x : 0 <= wrap x < size_t_mod.
Proof. unfold wrap. apply Z.mod_pos_bound. reflexivity. Qed.

Lemma same_frame_refl p : same_frame p p.
Proof. repeat split. Qed.

Lemma same_frame_trans p q r : same_frame p q -> same_frame q r -> same_frame p r.
Proof. unfold same_frame. intros (?&?&?&?) (?&?&?&?). repeat split; congruence. Qed.

Lemma in_range_spec i n k : in_range i n k = true <-> i <= k < i + n.
Proof. unfold in_range. rewrite andb_true_iff, Z.leb_le, Z.ltb_lt. reflexivity. Qed.

Lemma in_range_false i n k : in_range i n k = false <-> ~ (i <= k < i + n).
Proof. rewrite <- in_range_spec. destruct (in_range i n k); split; congruence. Qed.

Lemma in_range_succ i n k :
  0 <= n -> in_range i (n + 1) k = (k =? i) || in_range (i + 1) n k.
Proof.
  intros Hn. unfold in_range.
  destruct (Z.leb_spec i k), (Z.ltb_spec k (i + (n + 1))), (Z.eqb_spec k i),
    (Z.leb_spec (i + 1) k), (Z.ltb_spec k (i + 1 + n)); simpl; try reflexivity; lia.
Qed.

(** The [assert] of [use_blocks] passes on a free block. *)
Lemma assert_passes c i :
  in_use c i = false -> (Z.rem (Z.shiftr c (kByte - 1 - i mod kByte)) 2 =? 1) = false.
Proof.
  unfold in_use. intros H. apply negb_false_iff, Z.eqb_eq in H. rewrite H. reflexivity.
Qed.

Lemma use_loop_spec count : forall i p,
  0 <= i -> i + Z.of_nat count <= block_counter p ->
  block_counter p <= 8 * Z.of_nat (length (used_blocks p)) ->
  block_counter p < size_t_mod ->
  free_run (used_blocks p) i (Z.of_nat count) ->
  blocks_free_num p = zero_bits (used_blocks p) (Z.to_nat (block_counter p)) ->
  exists p',
    for_range count i use_blocks_body p = Ok tt p' /\
    same_frame p p' /\ free_block p' = free_block p /\
    (forall k, 0 <= k ->
       used (used_blocks p') k = in_range i (Z.of_nat count) k || used (used_blocks p) k) /\
    blocks_free_num p' = zero_bits (used_blocks p') (Z.to_nat (block_counter p')).
Proof.
  induction count as [|count IH]; intros i p Hi Hbound Hlen Hbc Hrun Hcount.
  - exists p. cbn [for_range]. repeat split; try assumption.
    intros k Hk. unfold in_range.
    destruct (Z.leb_spec i k), (Z.ltb_spec k (i + Z.of_nat 0)); simpl; try reflexivity; lia.
  - cbn [for_range]. unfold use_blocks_body at 1.
    destruct (lookup_bit (used_blocks p) i ltac:(lia)) as [c Hc]. rewrite Hc.
    assert (Hfree : used (used_blocks p) i = false) by (apply Hrun; lia).
    assert (Hinuse : in_use c i = false) by (unfold used in Hfree; rewrite Hc in Hfree; exact Hfree).
    rewrite (assert_passes _ _ Hinuse).
    set (ub1 := <[Z.to_nat (i / kByte) := _]> (used_blocks p)).
    set (p1 := set_blocks_free_num _ _).
    assert (Hub1 : forall k, 0 <= k -> used ub1 k = (k =? i) || used (used_blocks p) k)
      by (intros k Hk; apply used_set; assumption).
    assert (Hz : zero_bits ub1 (Z.to_nat (block_counter p))
                 = zero_bits (used_blocks p) (Z.to_nat (block_counter p)) - 1).
    { rewrite (zero_bits_set _ _ i _ Hi Hfree Hub1).
      rewrite Z2Nat.id by lia. destruct (Z.ltb_spec i (block_counter p)); lia. }
    pose proof (zero_bits_range ub1 (Z.to_nat (block_counter p))) as Hr.
    rewrite wrap_small by lia.
    destruct (IH (i + 1) p1) as (p' & Hrun' & Hframe & Hhint & Hbits & Hcnt).
    + lia.
    + subst p1. cbn. lia.
    + subst p1 ub1. cbn. rewrite length_insert. assumption.
    + subst p1. cbn. assumption.
    + subst p1. cbn. intros k Hk. rewrite Hub1 by lia.
      rewrite (Hrun k) by lia. apply orb_false_iff. split; [apply Z.eqb_neq; lia | reflexivity].
    + subst p1. cbn. rewrite wrap_small; lia.
    + exists p'. split; [exact Hrun'|]. split; [|split; [|split]].
      * eapply same_frame_trans; [|exact Hframe]. subst p1 ub1.
        unfold same_frame; cbn. rewrite length_insert. repeat split.
      * rewrite Hhint. reflexivity.
      * intros k Hk. rewrite Hbits by assumption. subst p1. cbn.
        rewrite Hub1 by assumption. rewrite Nat2Z.inj_succ, <- Z.add_1_r.
        rewrite in_range_succ by lia.
        destruct (k =? i), (in_range (i + 1) (Z.of_nat count) k),
          (used (used_blocks p) k); reflexivity.
      * exact Hcnt.
Qed.

Lemma free_loop_spec count : forall i p,
  0 <= i -> i + Z.of_nat count <= block_counter p ->
  block_counter p <= 8 * Z.of_nat (length (used_blocks p)) ->
  block_counter p < size_t_mod ->
  used_run (used_blocks p) i (Z.of_nat count) ->
  exists p',
    for_range count i free_blocks_body p = Ok tt p' /\
    same_frame p p' /\ free_block p' = free_block p /\
    blocks_free_num p' = blocks_free_num p /\
    (forall k, 0 <= k ->
       used (used_blocks p') k
       = negb (in_range i (Z.of_nat count) k) && used (used_blocks p) k) /\
    zero_bits (used_blocks p') (Z.to_nat (block_counter p))
    = zero_bits (used_blocks p) (Z.to_nat (block_counter p)) + Z.of_nat count.
Proof.
  induction count as [|count IH]; intros i p Hi Hbound Hlen Hbc Hrun.
  - exists p. cbn [for_range]. repeat split; try lia.
    intros k Hk. unfold in_range.
    destruct (Z.leb_spec i k), (Z.ltb_spec k (i + Z.of_nat 0)); simpl; try reflexivity; lia.
  - cbn [for_range]. unfold free_blocks_body at 1.
    destruct (lookup_bit (used_blocks p) i ltac:(lia)) as [c Hc]. rewrite Hc.
    assert (Hused : used (used_blocks p) i = true) by (apply Hrun; lia).
    set (ub1 := <[Z.to_nat (i / kByte) := _]> (used_blocks p)).
    set (p1 := set_used_blocks _ _).
    assert (Hub1 : forall k, 0 <= k -> used ub1 k = negb (k =? i) && used (used_blocks p) k)
      by (intros k Hk; apply used_clear; assumption).
    assert (Hz : zero_bits ub1 (Z.to_nat (block_counter p))
                 = zero_bits (used_blocks p) (Z.to_nat (block_counter p)) + 1).
    { rewrite (zero_bits_clear _ _ i _ Hi Hused Hub1).
      rewrite Z2Nat.id by lia. destruct (Z.ltb_spec i (block_counter p)); lia. }
    rewrite wrap_small by lia.
    destruct (IH (i + 1) p1) as (p' & Hrun' & Hframe & Hhint & Hfree & Hbits & Hcnt).
    + lia.
    + subst p1. cbn. lia.
    + subst p1 ub1. cbn. rewrite length_insert. assumption.
    + subst p1. cbn. assumption.
    + subst p1. cbn. intros k Hk. rewrite Hub1 by lia.
      rewrite (Hrun k) by lia. apply andb_true_iff. split; [|reflexivity].
      apply negb_true_iff, Z.eqb_neq. lia.
    + exists p'. split; [exact Hrun'|]. split; [|split; [|split; [|split]]].
      * eapply same_frame_trans; [|exact Hframe]. subst p1 ub1.
        unfold same_frame; cbn. rewrite length_insert. repeat split.
      * rewrite Hhint. reflexivity.
      * rewrite Hfree. reflexivity.
      * intros k Hk. rewrite Hbits by assumption. subst p1. cbn.
        rewrite Hub1 by assumption. rewrite Nat2Z.inj_succ, <- Z.add_1_r.
        rewrite in_range_succ by lia.
        destruct (k =? i), (in_range (i + 1) (Z.of_nat count) k),
          (used (used_blocks p) k); reflexivity.
      * subst p1. cbn in Hcnt. rewrite Hcnt, Hz. lia.
Qed.

(** ** The search of [get_blocks] *)

(** The inner loop, started with [ok = true] inside the bitmap buffer, ends
    in one of three ways: the window reached [n] free blocks; an occupied
    block [pos] stopped it; or it read past the end of the buffer. *)
Lemma get_blocks_while_spec (ub : list Z) (left n : Z) fuel : forall i right,
  0 <= left <= right -> right <= left + n ->
  right <= 8 * Z.of_nat (length ub) ->
  8 * Z.of_nat (length ub) + 1 < size_t_mod ->
  (Z.to_nat (8 * Z.of_nat (length ub) - right) < fuel)%nat ->
  (get_blocks_while fuel ub left n i right true = Ok tt (i, left + n, true) /\
   left + n <= 8 * Z.of_nat (length ub) /\
   free_run ub right (left + n - right))
  \/ (exists pos,
        get_blocks_while fuel ub left n i right true = Ok tt (pos, pos + 1, false) /\
        right <= pos < left + n /\ pos < 8 * Z.of_nat (length ub) /\
        used ub pos = true /\ free_run ub right (pos - right))
  \/ (get_blocks_while fuel ub left n i right true = Undefined /\
      8 * Z.of_nat (length ub) < left + n).
Proof.
  induction fuel as [|fuel IH]; intros i right Hleft Hright HB HW Hfuel; [lia|].
  cbn [get_blocks_while]. rewrite wrap_small by lia. rewrite andb_true_r.
  destruct (Z.leb_spec (right - left + 1) n) as [Hin|Hout].
  - destruct (Z_lt_le_dec right (8 * Z.of_nat (length ub))) as [Hlt|Hge].
    + destruct (lookup_bit ub right ltac:(lia)) as [c Hc]. rewrite Hc.
      assert (Hbit : used ub right = in_use c right) by (unfold used; rewrite Hc; reflexivity).
      rewrite wrap_small by lia.
      destruct (in_use c right) eqn:Hu.
      * right; left. exists right. split; [|split; [lia|split; [lia|split; [exact Hbit|]]]].
        -- destruct fuel as [|fuel']; [lia|]. cbn [get_blocks_while].
           rewrite andb_false_r. reflexivity.
        -- intros k Hk. lia.
      * destruct (IH i (right + 1)) as [(Hr & Hle & Hfree)|[(pos & Hr & Hpos & HposB & Hused & Hfree)|(Hr & Hgt)]];
          try lia.
        -- left. split; [exact Hr|split; [exact Hle|]].
           intros k Hk. destruct (Z.eq_dec k right) as [->|Hne]; [exact Hbit|].
           apply Hfree. lia.
        -- right; left. exists pos. split; [exact Hr|split; [lia|split; [lia|split; [exact Hused|]]]].
           intros k Hk. destruct (Z.eq_dec k right) as [->|Hne]; [exact Hbit|].
           apply Hfree. lia.
        -- right; right. split; [exact Hr|exact Hgt].
    + right; right. unfold kByte. rewrite lookup_ge_None_2.
      * split; [reflexivity|lia].
      * assert (Z.of_nat (length ub) <= right / 8) by (apply Z.div_le_lower_bound; lia). lia.
  - left. assert (right = left + n) by lia. subst right.
    split; [reflexivity|split; [lia|]]. intros k Hk. lia.
Qed.

(** The test [right - left + 1 == n] after [--right] holds for a window of
    [n] blocks, also when [n = 0] makes [--right] wrap. *)
Lemma window_complete left n :
  0 <= left -> 0 <= n -> left + n < size_t_mod ->
  wrap (wrap (left + n - 1) - left + 1) = n.
Proof.
  intros Hl Hn Hlt. unfold wrap.
  replace (((left + n - 1) mod size_t_mod) - left + 1)
    with ((left + n - 1) mod size_t_mod + (1 - left)) by lia.
  rewrite Zplus_mod_idemp_l.
  replace (left + n - 1 + (1 - left)) with n by lia.
  apply Z.mod_small. lia.
Qed.

(** The search loop from [i]: it reads past the buffer, or finds the lowest
    start [s >= i] of a run of [n] free blocks, or leaves the loop at some
    [e] where the loop test fails, with no run starting in [i .. e-1]. *)
Lemma get_blocks_for_spec (p : Pool) (n : Z) fuel : forall i,
  0 <= n < size_t_mod ->
  0 <= i <= 8 * Z.of_nat (length (used_blocks p)) ->
  8 * Z.of_nat (length (used_blocks p)) + 1 < size_t_mod ->
  (Z.to_nat (8 * Z.of_nat (length (used_blocks p)) - i) < fuel)%nat ->
  (get_blocks_for fuel n i p = Undefined /\
   exists s, i <= s <= 8 * Z.of_nat (length (used_blocks p)) /\
             wrap (s + n) <= block_counter p /\
             8 * Z.of_nat (length (used_blocks p)) < s + n)
  \/ (exists s,
        get_blocks_for fuel n i p = Ok s (advance_hint n s p) /\
        i <= s /\ wrap (s + n) <= block_counter p /\
        s + n <= 8 * Z.of_nat (length (used_blocks p)) /\
        free_run (used_blocks p) s n /\ no_run (used_blocks p) n i s)
  \/ (get_blocks_for fuel n i p = Ok (block_counter p) p /\
      exists e, i <= e <= 8 * Z.of_nat (length (used_blocks p)) /\
                block_counter p < wrap (e + n) /\
                no_run (used_blocks p) n i e).
Proof.
  induction fuel as [|fuel IH]; intros i Hn Hi HW Hfuel; [lia|].
  cbn [get_blocks_for].
  destruct (Z.leb_spec (wrap (i + n)) (block_counter p)) as [Hcond|Hcond].
  - destruct (get_blocks_while_spec (used_blocks p) i n (scan_fuel (used_blocks p)) i i)
      as [(Hr & Hle & Hfree)|[(pos & Hr & Hpos & HposB & Hused & Hfree)|(Hr & Hgt)]];
      try lia.
    { unfold scan_fuel. lia. }
    + rewrite Hr. rewrite window_complete by lia. rewrite Z.eqb_refl. cbn [andb].
      right; left. exists i. split; [reflexivity|].
      split; [lia|split; [exact Hcond|split; [exact Hle|split]]].
      * intros k Hk. apply Hfree. lia.
      * intros s Hs. lia.
    + rewrite Hr. rewrite andb_false_r. rewrite wrap_small by lia.
      assert (Hno : no_run (used_blocks p) n i (pos + 1)).
      { intros s Hs Hrun. rewrite (Hrun pos) in Hused by lia. discriminate. }
      destruct (IH (pos + 1)) as [(Hr' & s & Hs & Hc & Hgt)|[(s & Hr' & Hs & Hc & Hle & Hrun & Hnr)|(Hr' & e & He & Hc & Hnr)]];
        try lia.
      * left. split; [exact Hr'|]. exists s. repeat split; try lia.
      * right; left. exists s. split; [exact Hr'|].
        split; [lia|split; [exact Hc|split; [exact Hle|split; [exact Hrun|]]]].
        intros s' Hs'. destruct (Z_lt_le_dec s' (pos + 1)); [apply Hno|apply Hnr]; lia.
      * right; right. split; [exact Hr'|]. exists e.
        split; [lia|split; [exact Hc|]].
        intros s' Hs'. destruct (Z_lt_le_dec s' (pos + 1)); [apply Hno|apply Hnr]; lia.
    + rewrite Hr. left. split; [reflexivity|]. exists i. repeat split; try lia.
  - right; right. split; [reflexivity|]. exists i. split; [lia|split; [lia|]].
    intros s Hs. lia.
Qed.

(** ** Consequences of the pool invariant *)

Lemma pool_ok_bounds p :
  pool_ok p ->
  0 < block_size p /\ 0 < block_counter p /\ block_counter p < 2 ^ 63 /\
  block_counter p <= 8 * Z.of_nat (length (used_blocks p)) /\
  8 * Z.of_nat (length (used_blocks p)) <= block_counter p + 7.
Proof.
  intros [(Hbs & Hbc & Hprod) Hlen _ _ _ _].
  assert (block_counter p < 2 ^ 63) by nia.
  rewrite Hlen. pose proof (Z.div_pos (block_counter p - 1) 8).
  rewrite Z2Nat.id by lia.
  pose proof (Z.div_mod (block_counter p - 1) 8).
  pose proof (Z.mod_pos_bound (block_counter p - 1) 8). lia.
Qed.

Lemma size_t_mod_eq : size_t_mod = 2 ^ 64.
Proof. reflexivity. Qed.

Lemma two63 : 2 ^ 63 + 2 ^ 63 = 2 ^ 64.
Proof. reflexivity. Qed.

Lemma set_free_block_same p : set_free_block (free_block p) p = p.
Proof. destruct p. reflexivity. Qed.

(** For a byte count of at least one, [number_of_blocks] is the rounded-up
    quotient. *)
Lemma number_of_blocks_ceil bs bytes_ :
  0 < bs -> 1 <= bytes_ < size_t_mod ->
  number_of_blocks bs bytes_ = ceil_div bytes_ bs.
Proof.
  intros Hbs Hb. unfold number_of_blocks, ceil_div.
  rewrite (wrap_small (bytes_ - 1)) by lia.
  replace (bytes_ + bs - 1) with (bytes_ - 1 + 1 * bs) by lia.
  rewrite Z.div_add by lia.
  assert (0 <= (bytes_ - 1) / bs <= bytes_ - 1).
  { split; [apply Z.div_pos; lia|]. apply Z.div_le_upper_bound; nia. }
  rewrite wrap_small by lia. lia.
Qed.

Lemma ceil_div_bounds bs bytes_ :
  0 < bs -> 1 <= bytes_ ->
  1 <= ceil_div bytes_ bs /\ bytes_ <= ceil_div bytes_ bs * bs
  /\ (ceil_div bytes_ bs - 1) * bs < bytes_.
Proof.
  intros Hbs Hb. unfold ceil_div.
  pose proof (Z.div_mod (bytes_ + bs - 1) bs).
  pose proof (Z.mod_pos_bound (bytes_ + bs - 1) bs).
  assert (1 <= (bytes_ + bs - 1) / bs) by (apply Z.div_le_lower_bound; lia).
  nia.
Qed.

Lemma number_of_blocks_range bs bytes_ :
  0 <= number_of_blocks bs bytes_ < size_t_mod.
Proof. apply wrap_range. Qed.

(** The three ways [get_blocks] ends on a pool that satisfies the
    invariant. *)
Lemma get_blocks_cases p n :
  pool_ok p -> 0 <= n < size_t_mod ->
  (get_blocks n p = Undefined /\ block_counter p < n)
  \/ (exists s,
        get_blocks n p = Ok s (advance_hint n s p) /\
        free_block p <= s /\ s + n <= block_counter p /\
        free_run (used_blocks p) s n /\ no_run (used_blocks p) n (free_block p) s)
  \/ (get_blocks n p = Ok (block_counter p) p /\
      forall s, free_block p <= s -> s + n <= block_counter p ->
                ~ free_run (used_blocks p) s n).
Proof.
  intros Hok Hn. pose proof (pool_ok_bounds p Hok) as (Hbs & Hbc & Hbc63 & HB1 & HB2).
  pose proof (ok_hint_range p Hok) as Hh. pose proof size_t_mod_eq as HW. pose proof two63.
  unfold get_blocks.
  destruct (get_blocks_for_spec p n (scan_fuel (used_blocks p)) (free_block p))
    as [(Hr & s & Hs & Hc & Hgt)|[(s & Hr & Hs & Hc & Hle & Hrun & Hnr)|(Hr & e & He & Hc & Hnr)]];
    try lia.
  { unfold scan_fuel. lia. }
  - left. split; [exact Hr|].
    destruct (Z_lt_le_dec (s + n) size_t_mod) as [Hlt|Hge]; [|lia].
    rewrite wrap_small in Hc by lia. lia.
  - right; left. exists s. rewrite wrap_small in Hc by lia.
    repeat split; assumption.
  - right; right. split; [exact Hr|]. intros s Hs Hsn.
    destruct (Z_lt_le_dec s e) as [Hlt|Hge]; [apply Hnr; lia|].
    rewrite wrap_small in Hc by lia. lia.
Qed.

(** When the loop test fails at the hint, [get_blocks] returns the sentinel
    at once. *)
Lemma get_blocks_exit p n :
  block_counter p < wrap (free_block p + n) -> get_blocks n p = Ok (block_counter p) p.
Proof.
  intros H. unfold get_blocks, scan_fuel. cbn [get_blocks_for].
  destruct (Z.leb_spec (wrap (free_block p + n)) (block_counter p)); [lia|reflexivity].
Qed.

(** The three ways [allocate] ends on a pool that satisfies the invariant:
    undefined behaviour, which needs a request larger than the pool; the
    empty result with the pool unchanged; or a pointer to the first run of
    free blocks at or after the hint, which is marked occupied. *)
Lemma allocate_cases p bytes_ :
  pool_ok p -> 0 <= bytes_ < size_t_mod ->
  let n := number_of_blocks (block_size p) bytes_ in
  (allocate bytes_ p = Undefined /\ block_counter p < n)
  \/ (allocate bytes_ p = Ok 0 p /\
      forall s, free_block p <= s < block_counter p -> s + n <= block_counter p ->
                ~ free_run (used_blocks p) s n)
  \/ (exists s p',
        allocate bytes_ p = Ok (mem_pointer p + s * block_size p) p' /\
        free_block p <= s < block_counter p /\ s + n <= block_counter p /\
        free_run (used_blocks p) s n /\ no_run (used_blocks p) n (free_block p) s /\
        same_frame p p' /\
        free_block p' = (if s =? free_block p then s + n else free_block p) /\
        (forall k, 0 <= k ->
           used (used_blocks p') k = in_range s n k || used (used_blocks p) k) /\
        blocks_free_num p' = zero_bits (used_blocks p') (Z.to_nat (block_counter p')) /\
        blocks_free_num p' = blocks_free_num p - n).
Proof.
  intros Hok Hb n. pose proof (pool_ok_bounds p Hok) as (Hbs & Hbc & Hbc63 & HB1 & HB2).
  pose proof (ok_hint_range p Hok) as Hh. pose proof size_t_mod_eq as HW. pose proof two63.
  assert (Hn : 0 <= n < size_t_mod) by apply wrap_range.
  unfold allocate. destruct (Z.eqb_spec (block_size p) 0) as [?|_]; [lia|].
  fold (number_of_blocks (block_size p) bytes_). fold n. unfold bind.
  destruct (get_blocks_cases p n Hok Hn)
    as [(Hr & Hgt)|[(s & Hr & Hs & Hsn & Hrun & Hnr)|(Hr & Hnone)]]; rewrite Hr.
  - left. split; [reflexivity|exact Hgt].
  - assert (Hadv : block_counter (advance_hint n s p) = block_counter p
                   /\ used_blocks (advance_hint n s p) = used_blocks p
                   /\ blocks_free_num (advance_hint n s p) = blocks_free_num p
                   /\ block_size (advance_hint n s p) = block_size p
                   /\ mem_pointer (advance_hint n s p) = mem_pointer p
                   /\ free_block (advance_hint n s p)
                      = (if s =? free_block p then s + n else free_block p)).
    { unfold advance_hint. destruct (s =? free_block p); cbn; repeat split.
      apply wrap_small. lia. }
    destruct Hadv as (Ha1 & Ha2 & Ha3 & Ha4 & Ha5 & Ha6).
    rewrite Ha1. destruct (Z.leb_spec (block_counter p) s) as [Hge|Hlt].
    + right; left. assert (s = block_counter p) by lia. assert (n = 0) by lia.
      split.
      * f_equal. unfold advance_hint. destruct (Z.eqb_spec s (free_block p)) as [E|E]; [|reflexivity].
        replace (wrap (s + n)) with (free_block p) by (rewrite wrap_small; lia).
        apply set_free_block_same.
      * intros s' Hs' _. apply Hnr. lia.
    + right; right.
      unfold use_blocks. rewrite wrap_small by lia.
      replace (s + n - s) with n by lia.
      destruct (use_loop_spec (Z.to_nat n) s (advance_hint n s p))
        as (p' & Hrun' & Hframe & Hhint & Hbits & Hcnt).
      * lia.
      * rewrite Ha1, Z2Nat.id; lia.
      * rewrite Ha1, Ha2. exact HB1.
      * rewrite Ha1. lia.
      * rewrite Ha2, Z2Nat.id by lia. exact Hrun.
      * rewrite Ha1, Ha2, Ha3. apply (ok_count p Hok).
      * rewrite Hrun'. destruct Hframe as (Hf1 & Hf2 & Hf3 & Hf4).
        exists s, p'. rewrite Hf1, Hf3, Ha4, Ha5.
        destruct Hok as [(_ & _ & Hprod) _ _ _ Hcount _].
        rewrite wrap_small by nia.
        split; [reflexivity|]. split; [lia|]. split; [exact Hsn|].
        split; [exact Hrun|]. split; [exact Hnr|].
        split; [unfold same_frame; rewrite Hf1, Hf2, Hf3, Hf4, Ha1, Ha2, Ha4, Ha5; repeat split|].
        split; [rewrite Hhint; exact Ha6|].
        assert (Hbits' : forall k, 0 <= k ->
                   used (used_blocks p') k = in_range s n k || used (used_blocks p) k).
        { intros k Hk. rewrite Hbits, Ha2, Z2Nat.id by lia. reflexivity. }
        split; [exact Hbits'|]. split; [exact Hcnt|].
        rewrite Hcnt, Hf2, Ha1, Hcount.
        clear - Hbits' Hrun Hs Hsn Hh Hn.
        assert (Hgen : forall m,
                  zero_bits (used_blocks p') m
                  = zero_bits (used_blocks p) m - Z.max 0 (Z.min (s + n) (Z.of_nat m) - s)).
        { induction m as [|m IH]; cbn [zero_bits]; [lia|].
          rewrite IH, Hbits' by lia.
          destruct (in_range s n (Z.of_nat m)) eqn:E.
          - apply in_range_spec in E. rewrite (Hrun (Z.of_nat m)) by lia. cbn [orb]. lia.
          - apply in_range_false in E. cbn [orb].
            destruct (used (used_blocks p) (Z.of_nat m)); lia. }
        rewrite Hgen. lia.
  - right; left. rewrite Z.leb_refl. split; [reflexivity|].
    intros s Hs Hsn. apply Hnone; lia.
Qed.

(** ** Release of a live allocation *)

Lemma live_alloc_pointer p a : pool_ok p -> live_alloc p a -> 0 < fst a.
Proof.
  intros Hok (Hptr & Hidx & _). pose proof (pool_ok_bounds p Hok) as (Hbs & _).
  pose proof (ok_mem p Hok). rewrite Hptr. nia.
Qed.

Lemma deallocate_live p pointer_ bytes_ :
  pool_ok p -> live_alloc p (pointer_, bytes_) ->
  let idx := block_number p pointer_ in
  let n := number_of_blocks (block_size p) bytes_ in
  exists p',
    deallocate pointer_ bytes_ p = Ok tt p' /\
    same_frame p p' /\
    free_block p' = (if idx <? free_block p then idx else free_block p) /\
    (forall k, 0 <= k ->
       used (used_blocks p') k = negb (in_range idx n k) && used (used_blocks p) k) /\
    blocks_free_num p' = blocks_free_num p + n /\
    pool_ok p'.
Proof.
  intros Hok Hlive idx n.
  pose proof (live_alloc_pointer p _ Hok Hlive) as Hpos. cbn [fst] in Hpos.
  destruct Hlive as (Hptr & Hidx & Hn & Hbound & Hrun). cbn [fst snd] in *.
  fold idx in Hptr, Hidx, Hbound, Hrun. fold n in Hn, Hbound, Hrun.
  pose proof (pool_ok_bounds p Hok) as (Hbs & Hbc & Hbc63 & HB1 & HB2).
  pose proof (ok_hint_range p Hok) as Hh. pose proof size_t_mod_eq as HW. pose proof two63.
  unfold deallocate.
  destruct (Z.eqb_spec pointer_ 0) as [?|_]; [lia|].
  destruct (Z.eqb_spec (block_size p) 0) as [?|_]; [lia|].
  fold (number_of_blocks (block_size p) bytes_). fold n.
  fold (block_number p pointer_). fold idx.
  unfold free_blocks. rewrite wrap_small by lia.
  replace (idx + n - idx) with n by lia.
  destruct (free_loop_spec (Z.to_nat n) idx p)
    as (p1 & Hrun1 & Hframe & Hhint & Hfree & Hbits & Hcnt); try lia.
  { rewrite Z2Nat.id by lia. exact Hrun. }
  rewrite Hrun1. rewrite Z2Nat.id in Hbits, Hcnt by lia.
  destruct Hframe as (Hf1 & Hf2 & Hf3 & Hf4).
  set (p2 := if idx <? free_block p1 then set_free_block idx p1 else p1).
  assert (Hp2 : block_size p2 = block_size p /\ block_counter p2 = block_counter p
                /\ mem_pointer p2 = mem_pointer p /\ used_blocks p2 = used_blocks p1
                /\ blocks_free_num p2 = blocks_free_num p
                /\ free_block p2 = (if idx <? free_block p then idx else free_block p)).
  { subst p2. rewrite Hhint. destruct (idx <? free_block p); cbn; repeat split; assumption. }
  destruct Hp2 as (Hq1 & Hq2 & Hq3 & Hq4 & Hq5 & Hq6).
  pose proof (zero_bits_range (used_blocks p1) (Z.to_nat (block_counter p))) as Hr.
  pose proof (ok_count p Hok) as Hcount.
  assert (Hbfn : wrap (blocks_free_num p2 + n) = blocks_free_num p + n)
    by (rewrite Hq5; apply wrap_small; lia).
  eexists. split; [reflexivity|].
  split; [unfold same_frame; cbn; rewrite Hq1, Hq2, Hq3, Hq4; repeat split; assumption|].
  split; [cbn; exact Hq6|].
  split; [cbn; rewrite Hq4; exact Hbits|].
  split; [cbn; exact Hbfn|].
  destruct Hok as [Hcfg Hlen _ Hhintrun _ Hmem].
  constructor; cbn; rewrite ?Hq1, ?Hq2, ?Hq3, ?Hq4, ?Hq6, ?Hbfn.
  - exact Hcfg.
  - rewrite Hf4. exact Hlen.
  - destruct (Z.ltb_spec idx (free_block p)); lia.
  - intros k Hk. rewrite Hbits by lia.
    apply andb_true_iff. split.
    + apply negb_true_iff, in_range_false.
      destruct (Z.ltb_spec idx (free_block p)); lia.
    + apply Hhintrun. destruct (Z.ltb_spec idx (free_block p)); lia.
  - lia.
  - exact Hmem.
Qed.

(** ** Allocation preserves the invariant *)

Lemma allocate_ok p bytes_ pointer_ p' :
  pool_ok p -> 0 <= bytes_ < size_t_mod ->
  allocate bytes_ p = Ok pointer_ p' -> pool_ok p'.
Proof.
  intros Hok Hb Halloc.
  pose proof (pool_ok_bounds p Hok) as (Hbs & Hbc & Hbc63 & HB1 & HB2).
  pose proof (ok_hint_range p Hok) as Hh.
  pose proof (number_of_blocks_range (block_size p) bytes_) as Hn.
  destruct (allocate_cases p bytes_ Hok Hb)
    as [(Hr & _)|[(Hr & _)|(s & q & Hr & Hs & Hsn & Hrun & Hnr & Hframe & Hhint & Hbits & Hcnt & _)]];
    rewrite Hr in Halloc; try discriminate.
  - injection Halloc as _ <-. exact Hok.
  - injection Halloc as _ <-.
    destruct Hframe as (Hf1 & Hf2 & Hf3 & Hf4).
    destruct Hok as [Hcfg Hlen _ Hhintrun _ Hmem].
    constructor.
    + rewrite Hf1, Hf2. exact Hcfg.
    + rewrite Hf4, Hf2. exact Hlen.
    + rewrite Hhint, Hf2. destruct (Z.eqb_spec s (free_block p)); lia.
    + intros k Hk. rewrite Hbits by lia. apply orb_true_iff.
      rewrite Hhint in Hk.
      destruct (Z_lt_le_dec k (free_block p)) as [Hlt|Hge].
      * right. apply Hhintrun. lia.
      * left. apply in_range_spec. destruct (Z.eqb_spec s (free_block p)); lia.
    + exact Hcnt.
    + rewrite Hf3. exact Hmem.
Qed.

(** The empty result leaves the pool as it was. *)
Lemma allocate_null p bytes_ p' :
  pool_ok p -> 0 <= bytes_ < size_t_mod ->
  allocate bytes_ p = Ok 0 p' -> p' = p.
Proof.
  intros Hok Hb Halloc.
  pose proof (pool_ok_bounds p Hok) as (Hbs & _). pose proof (ok_mem p Hok).
  destruct (allocate_cases p bytes_ Hok Hb)
    as [(Hr & _)|[(Hr & _)|(s & q & Hr & Hs & _)]];
    rewrite Hr in Halloc; try discriminate.
  - injection Halloc as <-. reflexivity.
  - pose proof (ok_hint_range p Hok). injection Halloc as Hz _. nia.
Qed.

(** ** Live allocations *)

Lemma live_alloc_frame p p' a :
  same_frame p p' ->
  (used_run (used_blocks p) (block_number p (fst a))
            (number_of_blocks (block_size p) (snd a)) ->
   used_run (used_blocks p') (block_number p (fst a))
            (number_of_blocks (block_size p) (snd a))) ->
  live_alloc p a -> live_alloc p' a.
Proof.
  intros (Hf1 & Hf2 & Hf3 & Hf4) Hmono (Hptr & Hidx & Hn & Hbound & Hrun).
  unfold live_alloc, block_number in *. rewrite Hf1, Hf2, Hf3.
  repeat split; try assumption. apply Hmono. exact Hrun.
Qed.

Lemma owns_block_frame p p' a k :
  same_frame p p' -> owns_block p' a k <-> owns_block p a k.
Proof.
  intros (Hf1 & Hf2 & Hf3 & Hf4). unfold owns_block, block_number.
  rewrite Hf1, Hf3. reflexivity.
Qed.

Lemma live_ok_frame p p' l :
  same_frame p p' ->
  (forall a, In a l -> live_alloc p a -> live_alloc p' a) ->
  live_ok p l -> live_ok p' l.
Proof.
  intros Hframe Hmono Hlive. induction Hlive as [|a l Ha Hdisj Hl IH].
  - constructor.
  - constructor.
    + apply Hmono; [left; reflexivity|exact Ha].
    + intros b k Hb Hak Hbk. apply (Hdisj b k Hb).
      * apply (owns_block_frame p p' a k Hframe). exact Hak.
      * apply (owns_block_frame p p' b k Hframe). exact Hbk.
    + apply IH. intros b Hb. apply Hmono. right. exact Hb.
Qed.

Lemma live_ok_In p l a : live_ok p l -> In a l -> live_alloc p a.
Proof.
  intros Hlive. induction Hlive as [|b l Hb Hdisj Hl IH]; intros Hin.
  - destruct Hin.
  - destruct Hin as [<-|Hin]; [exact Hb|apply IH; exact Hin].
Qed.

(** Taking one allocation out of the live ones: it was live, the others
    stay live and share no block with it. *)
Lemma live_ok_split p l1 a l2 :
  live_ok p (l1 ++ a :: l2) ->
  live_alloc p a /\ live_ok p (l1 ++ l2) /\
  (forall b k, In b (l1 ++ l2) -> owns_block p a k -> owns_block p b k -> False).
Proof.
  induction l1 as [|c l1 IH]; cbn [app]; intros Hlive;
    inversion Hlive as [|x l Hx Hdisj Hl]; subst.
  - split; [exact Hx|split; [exact Hl|exact Hdisj]].
  - destruct (IH Hl) as (Ha & Hrest & Hsep).
    split; [exact Ha|]. split.
    + constructor; [exact Hx| |exact Hrest].
      intros b k Hb. apply Hdisj. apply in_app_iff in Hb. apply in_app_iff.
      destruct Hb as [Hb|Hb]; [left; exact Hb|right; right; exact Hb].
    + intros b k [<-|Hb] Hak Hbk.
      * apply (Hdisj a k); [apply in_app_iff; right; left; reflexivity|exact Hbk|exact Hak].
      * apply (Hsep b k Hb Hak Hbk).
Qed.

(** ** Reachable states satisfy the invariant *)

Lemma used_replicate n k : used (replicate n 0) k = false.
Proof.
  unfold used. destruct (replicate n 0 !! Z.to_nat (k / kByte)) as [c|] eqn:E; [|reflexivity].
  apply lookup_replicate_1 in E as [-> _].
  rewrite in_use_testbit. apply Z.bits_0.
Qed.

Lemma zero_bits_all_free (ub : list Z) m :
  (forall k, 0 <= k < Z.of_nat m -> used ub k = false) ->
  zero_bits ub m = Z.of_nat m.
Proof.
  induction m as [|m IH]; intros H; cbn [zero_bits]; [reflexivity|].
  rewrite IH by (intros; apply H; lia). rewrite H by lia. lia.
Qed.

Lemma Pool_ctor_ok bs bc m u p :
  valid_config bs bc -> 0 < m -> Pool_ctor bs bc m u = Ok tt p ->
  pool_ok p /\ block_size p = bs /\ block_counter p = bc /\
  free_block p = 0 /\ blocks_free_num p = bc /\ mem_pointer p = m /\
  forall k, used (used_blocks p) k = false.
Proof.
  intros (Hbs & Hbc & Hprod) Hm. unfold Pool_ctor.
  destruct (m =? 0); [discriminate|]. destruct (u =? 0); [discriminate|].
  intros H. injection H as <-. cbn.
  assert (Hbc63 : bc < 2 ^ 63) by nia.
  pose proof size_t_mod_eq as HW. pose proof two63.
  pose proof (Z.div_pos (bc - 1) 8). 
  assert ((bc - 1) / 8 <= bc - 1) by (apply Z.div_le_upper_bound; lia).
  assert (Hsize : wrap (1 + wrap (bc - 1) / kByte) = 1 + (bc - 1) / 8).
  { unfold kByte. rewrite (wrap_small (bc - 1)) by lia. apply wrap_small. lia. }
  rewrite Hsize.
  split; [|repeat split; try reflexivity; intros; apply used_replicate].
  constructor; cbn.
  - repeat split; assumption.
  - apply length_replicate.
  - lia.
  - intros k Hk. lia.
  - rewrite zero_bits_all_free by (intros; apply used_replicate). lia.
  - exact Hm.
Qed.

Lemma block_number_pointer p s :
  0 < block_size p -> 0 <= s -> s * block_size p < size_t_mod ->
  block_number p (mem_pointer p + s * block_size p) = s.
Proof.
  intros Hbs Hs Hlt. unfold block_number.
  replace (mem_pointer p + s * block_size p - mem_pointer p) with (s * block_size p) by lia.
  rewrite wrap_small by nia. apply Z.div_mul. lia.
Qed.

Theorem reachable_inv p l : reachable p l -> pool_ok p /\ live_ok p l.
Proof.
  induction 1 as [bs bc m u p Hcfg Hm Hctor
                 | p l bytes_ pointer_ p' Hreach [Hok Hlive] Hb Halloc Hptr
                 | p l bytes_ p' Hreach [Hok Hlive] Hb Halloc
                 | p l1 l2 pointer_ bytes_ p' Hreach [Hok Hlive] Hdealloc].
  - split; [|constructor]. apply (Pool_ctor_ok bs bc m u p Hcfg Hm Hctor).
  - split; [exact (allocate_ok p bytes_ pointer_ p' Hok Hb Halloc)|].
    pose proof (pool_ok_bounds p Hok) as (Hbs & Hbc & Hbc63 & HB1 & HB2).
    pose proof (ok_hint_range p Hok) as Hh.
    pose proof (number_of_blocks_range (block_size p) bytes_) as Hn.
    pose proof size_t_mod_eq as HW. pose proof two63.
    destruct (allocate_cases p bytes_ Hok Hb)
      as [(Hr & _)|[(Hr & _)|(s & q & Hr & Hs & Hsn & Hrun & Hnr & Hframe & Hhint & Hbits & Hcnt & _)]];
      rewrite Hr in Halloc; try discriminate.
    + injection Halloc as <- _. contradiction.
    + injection Halloc as <- <-.
      pose proof Hframe as (Hf1 & Hf2 & Hf3 & Hf4).
      assert (Hprod : s * block_size p < size_t_mod).
      { destruct Hok as [(_ & _ & Hprod) _ _ _ _ _]. nia. }
      assert (Hbn : block_number q (mem_pointer p + s * block_size p) = s).
      { rewrite <- Hf1, <- Hf3. apply block_number_pointer; rewrite ?Hf1; lia. }
      constructor.
      * unfold live_alloc. cbn [fst snd]. rewrite Hbn, Hf1, Hf2, Hf3.
        repeat split; try lia.
        intros k Hk. rewrite Hbits by lia. apply orb_true_iff. left.
        apply in_range_spec. exact Hk.
      * intros b k Hb' Hak Hbk.
        unfold owns_block in Hak. cbn [fst snd] in Hak. rewrite Hbn, Hf1 in Hak.
        apply (owns_block_frame p q b k Hframe) in Hbk.
        pose proof (live_ok_In p l b Hlive Hb') as (_ & _ & _ & _ & Hused).
        specialize (Hused k Hbk). rewrite (Hrun k Hak) in Hused. discriminate.
      * apply (live_ok_frame p q l Hframe); [|exact Hlive].
        intros b Hb'. apply live_alloc_frame; [exact Hframe|].
        intros Hused k Hk. rewrite Hbits.
        -- apply orb_true_iff. right. apply Hused. exact Hk.
        -- pose proof (live_ok_In p l b Hlive Hb') as (_ & Hidx & _). lia.
  - rewrite (allocate_null p bytes_ p' Hok Hb Halloc). split; assumption.
  - destruct (live_ok_split p l1 (pointer_, bytes_) l2 Hlive) as (Ha & Hrest & Hsep).
    destruct (deallocate_live p pointer_ bytes_ Hok Ha)
      as (q & Hr & Hframe & Hhint & Hbits & Hfree & Hok').
    rewrite Hr in Hdealloc. injection Hdealloc as <-.
    split; [exact Hok'|].
    apply (live_ok_frame p q _ Hframe); [|exact Hrest].
    intros b Hb'. apply live_alloc_frame; [exact Hframe|].
    intros Hused k Hk. rewrite Hbits.
    + apply andb_true_iff. split; [|apply Hused; exact Hk].
      apply negb_true_iff, in_range_false. intros Hin.
      apply (Hsep b k Hb'); [exact Hin|exact Hk].
    + pose proof (live_ok_In p _ b Hrest Hb') as (_ & Hidx & _). lia.
Qed.

(** ** Requests a pool cannot or can serve *)

Lemma get_blocks_none p n :
  pool_ok p -> 0 <= n < size_t_mod -> free_block p + n < size_t_mod ->
  (forall s, free_block p <= s -> s + n <= block_counter p ->
             ~ free_run (used_blocks p) s n) ->
  get_blocks n p = Ok (block_counter p) p.
Proof.
  intros Hok Hn Hwrap Hnone.
  pose proof (ok_hint_range p Hok) as Hh.
  destruct (Z_lt_le_dec (block_counter p) n) as [Hbig|Hsmall].
  - apply get_blocks_exit. rewrite wrap_small; lia.
  - destruct (get_blocks_cases p n Hok Hn)
      as [(Hr & Hgt)|[(s & Hr & Hs & Hsn & Hrun & Hnr)|(Hr & _)]].
    + lia.
    + exfalso. apply (Hnone s Hs Hsn Hrun).
    + exact Hr.
Qed.

Lemma allocate_none p bytes_ :
  pool_ok p -> 0 <= bytes_ < size_t_mod ->
  free_block p + number_of_blocks (block_size p) bytes_ < size_t_mod ->
  (forall s, free_block p <= s ->
             s + number_of_blocks (block_size p) bytes_ <= block_counter p ->
             ~ free_run (used_blocks p) s (number_of_blocks (block_size p) bytes_)) ->
  allocate bytes_ p = Ok 0 p.
Proof.
  intros Hok Hb Hwrap Hnone.
  pose proof (pool_ok_bounds p Hok) as (Hbs & _).
  unfold allocate. destruct (Z.eqb_spec (block_size p) 0) as [?|_]; [lia|].
  fold (number_of_blocks (block_size p) bytes_). unfold bind.
  rewrite (get_blocks_none p _ Hok (number_of_blocks_range _ _) Hwrap Hnone).
  rewrite Z.leb_refl. reflexivity.
Qed.

(** The free blocks of a pool are at most its blocks, so the product of the
    pre-filter does not wrap. *)
Lemma free_num_range p : pool_ok p -> 0 <= blocks_free_num p <= block_counter p.
Proof.
  intros Hok. pose proof (pool_ok_bounds p Hok) as (_ & Hbc & _).
  rewrite (ok_count p Hok).
  pose proof (zero_bits_range (used_blocks p) (Z.to_nat (block_counter p))). lia.
Qed.

Lemma block_fits_spec p bytes :
  pool_ok p ->
  block_fits bytes p = true <->
  bytes <= blocks_free_num p * block_size p /\ blocks_free_num p <> 0.
Proof.
  intros Hok. pose proof (free_num_range p Hok) as Hfree.
  pose proof (pool_ok_bounds p Hok) as (Hbs & Hbc & Hbc63 & _).
  destruct Hok as [(_ & _ & Hprod) _ _ _ _ _]. pose proof size_t_mod_eq.
  unfold block_fits. rewrite wrap_small by nia.
  rewrite andb_true_iff, Z.leb_le, negb_true_iff, Z.eqb_neq. reflexivity.
Qed.

(** A request of zero bytes asks a pool of blocks of two bytes or more for
    more blocks than the pool has. *)
Lemma number_of_blocks_zero bs bc :
  2 <= bs -> 0 <= bc -> bs * bc < size_t_mod ->
  bc < number_of_blocks bs 0 <= 2 ^ 63.
Proof.
  intros Hbs Hbc Hprod. unfold number_of_blocks.
  change (wrap (0 - 1)) with (size_t_mod - 1).
  pose proof size_t_mod_eq as HW. pose proof two63.
  assert (bc <= (size_t_mod - 1) / bs) by (apply Z.div_le_lower_bound; lia).
  assert ((size_t_mod - 1) / bs < 2 ^ 63) by (apply Z.div_lt_upper_bound; lia).
  rewrite wrap_small; lia.
Qed.

(** A pool asked by the chain for a run it does not have returns the empty
    result and stays as it was. *)
Lemma pool_declines p bytes :
  pool_ok p -> 0 <= bytes < size_t_mod ->
  block_fits bytes p = true ->
  ~ has_run p (number_of_blocks (block_size p) bytes) ->
  allocate bytes p = Ok 0 p.
Proof.
  intros Hok Hb Hfits Hnorun.
  pose proof (pool_ok_bounds p Hok) as (Hbs & Hbc & Hbc63 & _).
  pose proof (ok_hint_range p Hok) as Hh.
  pose proof (free_num_range p Hok) as Hfree.
  pose proof size_t_mod_eq as HW. pose proof two63.
  apply (block_fits_spec p bytes Hok) in Hfits as [Hle Hne].
  apply allocate_none; try assumption.
  - destruct (Z.eq_dec bytes 0) as [->|Hnz].
    + destruct (Z.eq_dec (block_size p) 1) as [E|E].
      * exfalso. apply Hnorun. exists 0. rewrite E.
        change (number_of_blocks 1 0) with 0.
        split; [lia|split; [lia|]]. intros k Hk. lia.
      * destruct Hok as [(_ & _ & Hprod) _ _ _ _ _].
        pose proof (number_of_blocks_zero (block_size p) (block_counter p)). lia.
    + rewrite number_of_blocks_ceil by lia.
      pose proof (ceil_div_bounds (block_size p) bytes). nia.
  - intros s Hs Hsn Hrun. apply Hnorun. exists s. split; [lia|split; assumption].
Qed.

(** A pool that has a run of the blocks a request of at least one byte
    needs passes the pre-filter and returns the lowest such run. *)
Lemma pool_accepts p bytes :
  pool_ok p -> 1 <= bytes < size_t_mod ->
  has_run p (ceil_div bytes (block_size p)) ->
  block_fits bytes p = true /\
  exists s p',
    allocate bytes p = Ok (mem_pointer p + s * block_size p) p' /\
    s < block_counter p /\ lowest_run p (ceil_div bytes (block_size p)) s /\
    same_frame p p' /\ pool_ok p'.
Proof.
  intros Hok Hb (s0 & Hs0 & Hs0n & Hrun0).
  pose proof (pool_ok_bounds p Hok) as (Hbs & Hbc & Hbc63 & _).
  pose proof (ok_hint_range p Hok) as Hh.
  pose proof (ceil_div_bounds (block_size p) bytes Hbs ltac:(lia)) as (Hn1 & Hn2 & Hn3).
  assert (Hhint : forall s', 0 <= s' < free_block p ->
                    ~ free_run (used_blocks p) s' (ceil_div bytes (block_size p))).
  { intros s' Hs' Hrun. specialize (Hrun s' ltac:(lia)).
    rewrite (ok_hint p Hok s') in Hrun by lia. discriminate. }
  assert (Hs0h : free_block p <= s0).
  { destruct (Z_lt_le_dec s0 (free_block p)); [|assumption].
    exfalso. apply (Hhint s0); [lia|exact Hrun0]. }
  split.
  - apply (block_fits_spec p bytes Hok).
    assert (Hcount : ceil_div bytes (block_size p)
                     <= zero_bits (used_blocks p) (Z.to_nat (block_counter p)))
      by (apply (zero_bits_run _ s0); [assumption|lia|assumption|lia]).
    rewrite <- (ok_count p Hok) in Hcount.
    assert (ceil_div bytes (block_size p) * block_size p
            <= blocks_free_num p * block_size p)
      by (apply Z.mul_le_mono_nonneg_r; lia).
    split; lia.
  - assert (Hb' : 0 <= bytes < size_t_mod) by lia.
    pose proof (allocate_cases p bytes Hok Hb') as Hcases. cbv zeta in Hcases.
    rewrite number_of_blocks_ceil in Hcases by lia.
    destruct Hcases
      as [(Hr & Hgt)|[(Hr & Hnone)|(s & q & Hr & Hs & Hsn & Hrun & Hnr & Hframe & _)]].
    + lia.
    + exfalso. apply (Hnone s0); [lia|assumption..].
    + exists s, q. split; [exact Hr|]. split; [lia|]. split; [|split; [exact Hframe|]].
      * split; [lia|split; [exact Hsn|split; [exact Hrun|]]].
        intros s' Hs'. destruct (Z_lt_le_dec s' (free_block p)); [apply Hhint|apply Hnr]; lia.
      * exact (allocate_ok p bytes _ q Hok Hb' Hr).
Qed.

(** ** The chain *)

Lemma lift_state_compose {S T U A : Type} (f : S -> T) (g : T -> U) (o : outcome S A) :
  lift_state g (lift_state f o) = lift_state (fun s => g (f s)) o.
Proof. destruct o; reflexivity. Qed.

(** Pools that are exhausted or too fragmented for the request are passed
    over and left as they are. *)
Lemma chain_passes_over bytes earlier rest :
  0 <= bytes < size_t_mod ->
  Forall (fun p => pool_ok p /\
                   (blocks_free_num p = 0 \/
                    ~ has_run p (number_of_blocks (block_size p) bytes))) earlier ->
  MemPoolList_allocate bytes (earlier ++ rest)
  = lift_state (app earlier) (MemPoolList_allocate bytes rest).
Proof.
  intros Hb Hall. induction Hall as [|p earlier (Hok & Hfail) Hall IH]; cbn [app].
  - destruct (MemPoolList_allocate bytes rest); reflexivity.
  - cbn [MemPoolList_allocate]. fold (block_fits bytes p).
    destruct (block_fits bytes p) eqn:Hfits.
    + destruct Hfail as [Hzero|Hnorun].
      * apply (block_fits_spec p bytes Hok) in Hfits as [_ Hne]. contradiction.
      * rewrite (pool_declines p bytes Hok Hb Hfits Hnorun). cbn.
        rewrite IH, lift_state_compose. reflexivity.
    + rewrite IH, lift_state_compose. reflexivity.
Qed.

(** [MemPoolList::allocate] never returns [nullptr]. *)
Lemma chain_never_null bytes chain : forall pointer chain',
  MemPoolList_allocate bytes chain = Ok pointer chain' -> pointer <> 0.
Proof.
  induction chain as [|p chain IH]; intros pointer chain'; cbn [MemPoolList_allocate].
  - discriminate.
  - assert (Hrest : forall pool', lift_state (cons pool') (MemPoolList_allocate bytes chain)
                                  = Ok pointer chain' -> pointer <> 0).
    { intros pool'. destruct (MemPoolList_allocate bytes chain) as [a s| | | |] eqn:E;
        cbn; try discriminate.
      intros H. injection H as <- _. apply (IH a s). reflexivity. }
    destruct ((bytes <=? wrap (blocks_free_num p * block_size p))
              && negb (blocks_free_num p =? 0)); [|apply Hrest].
    destruct (allocate bytes p) as [a s| | | |]; cbn; try discriminate.
    destruct (Z.eqb_spec a 0) as [E|E]; cbn.
    + apply Hrest.
    + intros H. injection H as <- _. exact E.
Qed.

(** [find] is the test of the address range of the arena. *)
Lemma find_false p pointer :
  0 <= block_size p -> 0 <= block_counter p ->
  ~ (mem_pointer p <= pointer < mem_pointer p + block_size p * block_counter p) ->
  find pointer p = false.
Proof.
  intros Hbs Hbc Hout. unfold find.
  assert (wrap (block_size p * block_counter p) <= block_size p * block_counter p).
  { unfold wrap. apply Z.mod_le; [nia|reflexivity]. }
  destruct (Z.leb_spec (mem_pointer p) pointer); [|reflexivity].
  destruct (Z.ltb_spec pointer (mem_pointer p + wrap (block_size p * block_counter p)));
    [lia|reflexivity].
Qed.

Lemma chain_deallocate_unowned pointer bytes chain :
  Forall (fun p => find pointer p = false) chain ->
  MemPoolList_deallocate pointer bytes chain = Ok tt chain.
Proof.
  induction 1 as [|p chain Hp _ IH]; cbn [MemPoolList_deallocate]; [reflexivity|].
  rewrite Hp, IH. reflexivity.
Qed.

Lemma remove_live_split a l l' :
  remove_live a l = Some l' -> exists l1 l2, l = l1 ++ a :: l2 /\ l' = l1 ++ l2.
Proof.
  revert l'. induction l as [|b l IH]; intros l'; cbn [remove_live]; [discriminate|].
  destruct ((fst a =? fst b) && (snd a =? snd b)) eqn:E.
  - intros H. injection H as <-. apply andb_true_iff in E as [E1 E2].
    apply Z.eqb_eq in E1, E2. exists [], l. split; [|reflexivity].
    destruct a, b. cbn in *. subst. reflexivity.
  - destruct (remove_live a l) as [l0|]; [|discriminate].
    intros H. injection H as <-.
    destruct (IH l0 eq_refl) as (l1 & l2 & -> & ->).
    exists (b :: l1), l2. split; reflexivity.
Qed.

Lemma run_reachable ops : forall p l p' l',
  reachable p l -> run ops p l = Some (p', l') -> reachable p' l'.
Proof.
  induction ops as [|[bytes_|pointer_ bytes_] ops IH]; intros p l p' l' Hreach; cbn [run].
  - intros H. injection H as <- <-. exact Hreach.
  - destruct ((0 <=? bytes_) && (bytes_ <? size_t_mod)) eqn:Hb; [|discriminate].
    apply andb_true_iff in Hb as [Hb1 Hb2]. apply Z.leb_le in Hb1. apply Z.ltb_lt in Hb2.
    destruct (allocate bytes_ p) as [pointer_ q| | | |] eqn:Halloc; try discriminate.
    destruct (Z.eqb_spec pointer_ 0) as [->|Hne]; apply IH.
    + exact (reach_allocate_none p l bytes_ q Hreach (conj Hb1 Hb2) Halloc).
    + exact (reach_allocate p l bytes_ pointer_ q Hreach (conj Hb1 Hb2) Halloc Hne).
  - destruct (remove_live (pointer_, bytes_) l) as [l0|] eqn:Hrem; [|discriminate].
    destruct (remove_live_split _ _ _ Hrem) as (l1 & l2 & -> & ->).
    destruct (deallocate pointer_ bytes_ p) as [[] q| | | |] eqn:Hd; try discriminate.
    apply IH. exact (reach_deallocate p l1 l2 pointer_ bytes_ q Hreach Hd).
Qed.

Lemma scenario_reachable bs bc m u ops p l :
  valid_config bs bc -> 0 < m ->
  scenario bs bc m u ops = Some (p, l) -> reachable p l.
Proof.
  intros Hcfg Hm. unfold scenario.
  destruct (Pool_ctor bs bc m u) as [[] q| | | |] eqn:Hctor; try discriminate.
  apply run_reachable. exact (reach_ctor bs bc m u q Hcfg Hm Hctor).
Qed.

(** ** [free_blocks] has no check *)

Lemma free_loop_no_assert count : forall i p,
  for_range count i free_blocks_body p <> AssertFail.
Proof.
  induction count as [|count IH]; intros i p; cbn [for_range]; [discriminate|].
  unfold free_blocks_body at 1.
  destruct (used_blocks p !! Z.to_nat (i / kByte)); [apply IH|discriminate].
Qed.

Lemma deallocate_no_assert pointer_ bytes_ p :
  deallocate pointer_ bytes_ p <> AssertFail.
Proof.
  unfold deallocate. destruct (pointer_ =? 0); [discriminate|].
  destruct (block_size p =? 0); [discriminate|].
  unfold free_blocks.
  match goal with |- context [for_range ?c ?i free_blocks_body p] =>
    pose proof (free_loop_no_assert c i p) as H;
    destruct (for_range c i free_blocks_body p) end;
    try discriminate. contradiction.
Qed.

(** The loop bound of the model is never reached: [get_blocks] ends by
    itself on every bitmap that fits the address space. *)
Lemma get_blocks_terminates p n :
  0 <= n < size_t_mod ->
  0 <= free_block p <= 8 * Z.of_nat (length (used_blocks p)) ->
  8 * Z.of_nat (length (used_blocks p)) + 1 < size_t_mod ->
  get_blocks n p <> OutOfFuel.
Proof.
  intros Hn Hh HW. unfold get_blocks.
  destruct (get_blocks_for_spec p n (scan_fuel (used_blocks p)) (free_block p) Hn Hh HW)
    as [(Hr & _)|[(s & Hr & _)|(Hr & _)]]; try (rewrite Hr; discriminate).
  unfold scan_fuel. lia.
Qed.

End CharSignedness.

(** * The claims *)

(** C1.  For every pool, after every sequence of public operations under
    valid use, the free-block counter [blocks_free_num] equals the number of
    zero bits among the first [block_counter] bits of the bitmap
    [used_blocks]. *)
Theorem free_count_matches_bitmap cs p l :
  reachable cs p l ->
  blocks_free_num p = zero_bits (used_blocks p) (Z.to_nat (block_counter p)).
Proof.
  intros Hreach. destruct (reachable_inv cs p l Hreach) as [Hok _].
  exact (ok_count p Hok).
Qed.

(** C2, amended.  Whenever [Pool::allocate] succeeds for a request of at
    least one byte on a pool in a state reachable by valid use, the pointer
    it returns is the address of the block that starts the lowest-indexed
    run of [ceil(byte_count / block_size)] consecutive free blocks. *)
Theorem allocate_first_fit cs p l bytes_ pointer_ p' :
  reachable cs p l -> 1 <= bytes_ < size_t_mod ->
  allocate cs bytes_ p = Ok pointer_ p' -> pointer_ <> 0 ->
  exists s,
    pointer_ = mem_pointer p + s * block_size p /\
    lowest_run p (ceil_div bytes_ (block_size p)) s.
Proof.
  intros Hreach Hb Halloc Hptr.
  destruct (reachable_inv cs p l Hreach) as [Hok _].
  pose proof (pool_ok_bounds p Hok) as (Hbs & _).
  pose proof (ok_hint_range p Hok) as Hh.
  pose proof (ceil_div_bounds (block_size p) bytes_ Hbs ltac:(lia)) as (Hn1 & _).
  assert (Hb' : 0 <= bytes_ < size_t_mod) by lia.
  pose proof (allocate_cases cs p bytes_ Hok Hb') as Hcases. cbv zeta in Hcases.
  rewrite number_of_blocks_ceil in Hcases by lia.
  destruct Hcases as [(Hr & _)|[(Hr & _)|(s & q & Hr & Hs & Hsn & Hrun & Hnr & _)]];
    rewrite Hr in Halloc; try discriminate.
  - injection Halloc as <- _. contradiction.
  - injection Halloc as <- _. exists s. split; [reflexivity|].
    split; [lia|split; [exact Hsn|split; [exact Hrun|]]].
    intros s' Hs'. destruct (Z_lt_le_dec s' (free_block p)) as [Hlt|Hge].
    + intros Hrun'. specialize (Hrun' s' ltac:(lia)).
      rewrite (ok_hint p Hok s') in Hrun' by lia. discriminate.
    + apply Hnr. lia.
Qed.

(** C3.  In every pool state reachable by valid use every block below the
    hint [free_block] is occupied; a successful allocation moves the hint
    to just past the run it consumed exactly when the run began at the hint
    and otherwise leaves it as it was (as does an allocation that returns
    the empty result); a release of a live allocation returns and lowers
    the hint to the released index when that index is smaller. *)
Theorem hint_is_lower_bound cs p l :
  reachable cs p l ->
  (0 <= free_block p <= block_counter p /\
   forall k, 0 <= k < free_block p -> used (used_blocks p) k = true) /\
  (forall bytes_ pointer_ p',
     0 <= bytes_ < size_t_mod -> allocate cs bytes_ p = Ok pointer_ p' ->
     free_block p' =
       if negb (pointer_ =? 0) && (block_number p pointer_ =? free_block p)
       then block_number p pointer_ + number_of_blocks (block_size p) bytes_
       else free_block p) /\
  (forall l1 l2 pointer_ bytes_,
     l = l1 ++ (pointer_, bytes_) :: l2 ->
     exists p',
       deallocate cs pointer_ bytes_ p = Ok tt p' /\
       free_block p' =
         if block_number p pointer_ <? free_block p
         then block_number p pointer_ else free_block p).
Proof.
  intros Hreach. destruct (reachable_inv cs p l Hreach) as [Hok Hlive].
  pose proof (pool_ok_bounds p Hok) as (Hbs & Hbc & Hbc63 & _).
  pose proof (ok_hint_range p Hok) as Hh. pose proof (ok_mem p Hok) as Hmem.
  split; [split; [exact Hh|exact (ok_hint p Hok)]|]. split.
  - intros bytes_ pointer_ p' Hb Halloc.
    destruct (allocate_cases cs p bytes_ Hok Hb)
      as [(Hr & _)|[(Hr & _)|(s & q & Hr & Hs & Hsn & _ & _ & _ & Hhint & _)]];
      rewrite Hr in Halloc; try discriminate.
    + injection Halloc as <- <-. reflexivity.
    + injection Halloc as <- <-.
      assert (Hprod : s * block_size p < size_t_mod).
      { destruct Hok as [(_ & _ & Hprod) _ _ _ _ _]. pose proof size_t_mod_eq. nia. }
      rewrite block_number_pointer by lia.
      destruct (Z.eqb_spec (mem_pointer p + s * block_size p) 0) as [E|_]; [nia|].
      exact Hhint.
  - intros l1 l2 pointer_ bytes_ ->.
    destruct (live_ok_split p l1 (pointer_, bytes_) l2 Hlive) as (Ha & _).
    destruct (deallocate_live cs p pointer_ bytes_ Hok Ha) as (q & Hr & _ & Hhint & _).
    exists q. split; [exact Hr|exact Hhint].
Qed.

(** C4.  For every pool state reachable by valid use and every request: if
    [Pool::allocate] succeeds with a pointer for [N] blocks, then
    [Pool::deallocate] of that pointer with the same byte count returns,
    restores [blocks_free_num] to its value before the allocation and
    clears exactly those [N] bits (which the allocation had set), every
    other bit being as before the allocation; [N] is
    [ceil(byte_count / block_size)] for a byte count of at least one. *)
Theorem allocate_deallocate_round_trip cs p l bytes_ pointer_ p' :
  reachable cs p l -> 0 <= bytes_ < size_t_mod ->
  allocate cs bytes_ p = Ok pointer_ p' -> pointer_ <> 0 ->
  let s := block_number p pointer_ in
  let n := number_of_blocks (block_size p) bytes_ in
  exists p'',
    deallocate cs pointer_ bytes_ p' = Ok tt p'' /\
    blocks_free_num p'' = blocks_free_num p /\
    pointer_ = mem_pointer p + s * block_size p /\ 0 <= s /\
    (1 <= bytes_ -> n = ceil_div bytes_ (block_size p)) /\
    (forall k, s <= k < s + n ->
       used (used_blocks p) k = false /\ used (used_blocks p') k = true /\
       used (used_blocks p'') k = false) /\
    (forall k, 0 <= k -> ~ (s <= k < s + n) ->
       used (used_blocks p'') k = used (used_blocks p) k).
Proof.
  intros Hreach Hb Halloc Hptr s n.
  pose proof (reach_allocate cs p l bytes_ pointer_ p' Hreach Hb Halloc Hptr) as Hreach'.
  destruct (reachable_inv cs p l Hreach) as [Hok _].
  destruct (reachable_inv cs p' _ Hreach') as [Hok' Hlive'].
  inversion Hlive' as [|a l0 Ha _ _]; subst.
  pose proof (pool_ok_bounds p Hok) as (Hbs & Hbc & Hbc63 & _).
  pose proof (ok_hint_range p Hok) as Hh.
  destruct (allocate_cases cs p bytes_ Hok Hb)
    as [(Hr & _)|[(Hr & _)|(s0 & q & Hr & Hs & Hsn & Hrun & _ & Hframe & _ & Hbits & _ & Hfree)]];
    rewrite Hr in Halloc; try discriminate.
  - injection Halloc as <- _. contradiction.
  - injection Halloc as <- <-.
    assert (Hprod : s0 * block_size p < size_t_mod).
    { destruct Hok as [(_ & _ & Hprod) _ _ _ _ _]. pose proof size_t_mod_eq. nia. }
    assert (Hs0 : s = s0) by (subst s; apply block_number_pointer; lia).
    destruct Hframe as (Hf1 & Hf2 & Hf3 & Hf4).
    destruct (deallocate_live cs q _ bytes_ Hok' Ha)
      as (r & Hd & _ & _ & Hbits' & Hfree' & _).
    assert (Hbn : block_number q (mem_pointer p + s0 * block_size p) = s0).
    { rewrite <- Hf1, <- Hf3. apply block_number_pointer; rewrite ?Hf1; lia. }
    rewrite Hbn, Hf1 in Hbits'. fold n in Hbits', Hfree, Hrun, Hbits. rewrite Hf1 in Hfree'.
    fold n in Hfree'.
    exists r. rewrite Hs0.
    split; [exact Hd|]. split; [lia|]. split; [reflexivity|]. split; [lia|].
    split; [intros Hb1; apply number_of_blocks_ceil; lia|]. split.
    + intros k Hk. split; [apply Hrun; exact Hk|]. split.
      * rewrite Hbits by lia. apply orb_true_iff. left. apply in_range_spec. exact Hk.
      * rewrite Hbits' by lia. apply andb_false_iff. left.
        apply negb_false_iff, in_range_spec. exact Hk.
    + intros k Hk Hout. rewrite Hbits', Hbits by lia.
      apply in_range_false in Hout. rewrite Hout. reflexivity.
Qed.

(** C5.  [Pool::deallocate] has no check of the bits it clears: it never
    ends in a failed assertion, and releasing the same allocation twice
    returns normally and leaves [blocks_free_num = 11] on a pool of 8
    blocks whose bitmap has 8 zero bits.  (The claim requires the double
    free to fail loudly, as [use_blocks] does with its [assert].) *)
Theorem double_free_is_not_detected cs :
  (forall pointer_ bytes_ p, deallocate cs pointer_ bytes_ p <> AssertFail) /\
  exists p0 p1 p2 p3,
    Pool_ctor 16 8 4096 8192 = Ok tt p0 /\
    allocate cs 33 p0 = Ok 4096 p1 /\
    deallocate cs 4096 33 p1 = Ok tt p2 /\
    deallocate cs 4096 33 p2 = Ok tt p3 /\
    block_counter p3 = 8 /\ blocks_free_num p3 = 11 /\
    zero_bits (used_blocks p3) (Z.to_nat (block_counter p3)) = 8.
Proof.
  split; [apply deallocate_no_assert|].
  exists (mkPool 16 8 8 0 4096 [0]), (mkPool 16 8 5 3 4096 [to_char cs 224]),
         (mkPool 16 8 8 0 4096 [0]), (mkPool 16 8 11 0 4096 [0]).
  destruct cs; vm_compute; tauto.
Qed.

(** C6, amended.  On a pool reachable by valid use with
    [blocks_free_num = 0], [Pool::allocate] of a byte count of at least one
    whose search bound [free_block + blocks_needed] does not wrap returns
    the empty result and leaves the pool as it was, its search returning
    the sentinel [block_counter].  On a chain whose pools are each
    exhausted or without a run of free blocks for the request,
    [MemPoolList::allocate] throws [std::bad_alloc] and leaves the chain as
    it was; and on no chain does it return [nullptr]. *)
Theorem exhaustion_is_signalled cs p l bytes_ chain bytes :
  reachable cs p l -> blocks_free_num p = 0 ->
  1 <= bytes_ < size_t_mod ->
  free_block p + number_of_blocks (block_size p) bytes_ < size_t_mod ->
  0 <= bytes < size_t_mod ->
  Forall (fun q => pool_ok q /\
                   (blocks_free_num q = 0 \/
                    ~ has_run q (number_of_blocks (block_size q) bytes))) chain ->
  get_blocks (number_of_blocks (block_size p) bytes_) p = Ok (block_counter p) p /\
  allocate cs bytes_ p = Ok 0 p /\
  MemPoolList_allocate cs bytes chain = BadAlloc chain /\
  (forall any_chain any_bytes pointer chain',
     MemPoolList_allocate cs any_bytes any_chain = Ok pointer chain' -> pointer <> 0).
Proof.
  intros Hreach Hzero Hb Hwrap Hbytes Hall.
  destruct (reachable_inv cs p l Hreach) as [Hok _].
  pose proof (pool_ok_bounds p Hok) as (Hbs & Hbc & Hbc63 & _).
  pose proof (ok_hint_range p Hok) as Hh.
  assert (Hfull : used_run (used_blocks p) 0 (block_counter p)).
  { rewrite (ok_count p Hok) in Hzero. apply zero_bits_none in Hzero.
    rewrite Z2Nat.id in Hzero by lia. exact Hzero. }
  assert (Hn : 1 <= number_of_blocks (block_size p) bytes_).
  { rewrite number_of_blocks_ceil by lia.
    apply (ceil_div_bounds (block_size p) bytes_); lia. }
  assert (Hnone : forall s, free_block p <= s ->
            s + number_of_blocks (block_size p) bytes_ <= block_counter p ->
            ~ free_run (used_blocks p) s (number_of_blocks (block_size p) bytes_)).
  { intros s Hs Hsn Hrun. specialize (Hrun s ltac:(lia)).
    rewrite (Hfull s) in Hrun by lia. discriminate. }
  split; [|split; [|split]].
  - apply get_blocks_none; try assumption. apply number_of_blocks_range.
  - apply allocate_none; try assumption. lia.
  - pose proof (chain_passes_over cs bytes chain [] Hbytes Hall) as Hpass.
    cbn [MemPoolList_allocate lift_state] in Hpass.
    rewrite !app_nil_r in Hpass. exact Hpass.
  - intros any_chain any_bytes. apply chain_never_null.
Qed.

(** C7.  [MemPoolList::allocate] probes the pools in chain order.  When the
    request exceeds the largest run of free blocks of every earlier pool
    (whether the pre-filter skips the pool or the pool passes it and fails
    its bitmap search) and fits a later pool [B], the earlier pools are
    left as they were and the call returns the pointer [B] allocates,
    which lies in the arena range of [B]. *)
Theorem chain_falls_back_to_later_pool cs earlier B rest bytes :
  earlier <> [] -> 0 <= bytes < size_t_mod ->
  Forall (fun A => pool_ok A /\ ~ has_run A (ceil_div bytes (block_size A))) earlier ->
  pool_ok B -> has_run B (ceil_div bytes (block_size B)) ->
  exists pointer B',
    MemPoolList_allocate cs bytes (earlier ++ B :: rest) = Ok pointer (earlier ++ B' :: rest) /\
    block_fits bytes B = true /\
    allocate cs bytes B = Ok pointer B' /\
    find pointer B = true /\
    mem_pointer B <= pointer < mem_pointer B + block_size B * block_counter B.
Proof.
  intros Hne Hb Hearlier HokB HrunB.
  assert (Hpos : 1 <= bytes).
  { destruct earlier as [|A earlier]; [contradiction|].
    inversion Hearlier as [|? ? (HokA & HnoA) _]; subst.
    pose proof (pool_ok_bounds A HokA) as (Hbs & Hbc & _).
    destruct (Z_lt_le_dec bytes 1) as [Hlt|Hge]; [|exact Hge].
    exfalso. apply HnoA. assert (bytes = 0) by lia. subst bytes.
    unfold ceil_div. rewrite Z.div_small by lia.
    exists 0. split; [lia|split; [lia|]]. intros k Hk. lia. }
  pose proof (pool_ok_bounds B HokB) as (Hbs & Hbc & Hbc63 & _).
  destruct (pool_accepts cs B bytes HokB ltac:(lia) HrunB)
    as (Hfits & s & B' & Halloc & Hs & (Hs0 & _) & _ & _).
  assert (Hin : mem_pointer B <= mem_pointer B + s * block_size B
                < mem_pointer B + block_size B * block_counter B) by nia.
  exists (mem_pointer B + s * block_size B), B'.
  split; [|split; [exact Hfits|split; [exact Halloc|split; [|exact Hin]]]].
  - rewrite chain_passes_over; [|exact Hb|].
    + cbn [MemPoolList_allocate]. fold (block_fits bytes B). rewrite Hfits, Halloc.
      pose proof (ok_mem B HokB).
      destruct (Z.eqb_spec (mem_pointer B + s * block_size B) 0) as [E|_]; [nia|].
      reflexivity.
    + apply Forall_impl with (1 := Hearlier). intros A (HokA & HnoA).
      split; [exact HokA|right].
      pose proof (pool_ok_bounds A HokA) as (HbsA & _).
      rewrite number_of_blocks_ceil by lia. exact HnoA.
  - unfold find. destruct HokB as [(_ & _ & Hprod) _ _ _ _ _].
    pose proof size_t_mod_eq. rewrite wrap_small by nia.
    apply andb_true_iff. split; [apply Z.leb_le|apply Z.ltb_lt]; lia.
Qed.

(** C8.  For every byte count and every pool state,
    [Pool::deallocate(nullptr, byte_count)] throws ([std::bad_alloc]) with
    the pool as it was before the call; it is never a silent no-op. *)
Theorem deallocate_null_throws cs bytes_ p :
  deallocate cs 0 bytes_ p = BadAlloc p.
Proof. reflexivity. Qed.

(** C9.  For every pointer that lies in no pool's arena range
    [[mem_pointer, mem_pointer + block_size * block_counter)], and for the
    null pointer, no pool's [find] claims the pointer and
    [MemPoolList::deallocate] returns normally with every pool of the chain
    (bitmap, free count, hint) as it was. *)
Theorem chain_deallocate_unowned_is_noop cs chain pointer bytes :
  Forall (fun p => 0 <= block_size p /\ 0 <= block_counter p /\ 0 < mem_pointer p) chain ->
  pointer = 0 \/
  Forall (fun p => ~ (mem_pointer p <= pointer
                      < mem_pointer p + block_size p * block_counter p)) chain ->
  Forall (fun p => find pointer p = false) chain /\
  MemPoolList_deallocate cs pointer bytes chain = Ok tt chain.
Proof.
  intros Hpools Hout.
  assert (Hfind : Forall (fun p => find pointer p = false) chain).
  { destruct Hout as [->|Hout].
    - apply Forall_impl with (1 := Hpools). intros p (Hbs & Hbc & Hmem).
      apply find_false; [assumption..|lia].
    - apply Forall_forall. intros p Hin.
      rewrite Forall_forall in Hpools, Hout.
      destruct (Hpools p Hin) as (Hbs & Hbc & _).
      apply find_false; [assumption..|apply Hout; exact Hin]. }
  split; [exact Hfind|apply chain_deallocate_unowned; exact Hfind].
Qed.

(** C10, amended.  For every pool with [block_size >= 2] whose arena size
    [block_size * block_counter] is below [2^64] and whose hint is inside
    the pool, the block count computed for a request of zero bytes,
    [1 + ((0 - 1) / block_size)] in arithmetic modulo [2^64], is larger
    than [block_counter]; [Pool::allocate(0)] returns the empty result and
    leaves the pool as it was, whatever blocks are free; and
    [MemPoolList::allocate(0)] throws [std::bad_alloc] on every chain of
    such pools. *)
Theorem allocate_zero_bytes cs p chain :
  zero_ok p -> Forall zero_ok chain ->
  block_counter p < number_of_blocks (block_size p) 0 /\
  allocate cs 0 p = Ok 0 p /\
  MemPoolList_allocate cs 0 chain = BadAlloc chain.
Proof.
  intros Hp Hchain.
  assert (Hpool : forall q, zero_ok q ->
            block_counter q < number_of_blocks (block_size q) 0 /\
            allocate cs 0 q = Ok 0 q).
  { intros q (Hbs & Hbc & Hprod & Hh).
    pose proof (number_of_blocks_zero (block_size q) (block_counter q) Hbs Hbc Hprod) as Hn.
    split; [lia|].
    unfold allocate. destruct (Z.eqb_spec (block_size q) 0) as [?|_]; [lia|].
    fold (number_of_blocks (block_size q) 0). unfold bind.
    assert (Hbc63 : block_counter q < 2 ^ 63) by nia.
    pose proof size_t_mod_eq. pose proof two63.
    rewrite get_blocks_exit by (rewrite wrap_small; lia).
    rewrite Z.leb_refl. reflexivity. }
  split; [apply Hpool; exact Hp|]. split; [apply Hpool; exact Hp|].
  induction Hchain as [|q chain Hq _ IH]; [reflexivity|].
  cbn [MemPoolList_allocate].
  destruct ((0 <=? wrap (blocks_free_num q * block_size q))
            && negb (blocks_free_num q =? 0)).
  - destruct (Hpool q Hq) as [_ ->]. cbn. rewrite IH. reflexivity.
  - rewrite IH. reflexivity.
Qed.

(** * The claims at concrete pools *)

Lemma valid_config_16_8 : valid_config 16 8.
Proof. unfold valid_config. lia. Qed.

Lemma fresh_pool_reachable : reachable true fresh_pool [].
Proof.
  apply (scenario_reachable true 16 8 4096 8192 []);
    [exact valid_config_16_8 | lia | vm_compute; reflexivity].
Qed.

Lemma pool_after_allocate_reachable :
  reachable true pool_after_allocate [(4096, 33)].
Proof.
  apply (scenario_reachable true 16 8 4096 8192 [OpAllocate 33]);
    [exact valid_config_16_8 | lia | vm_compute; reflexivity].
Qed.

Lemma first_fit_pool_reachable : reachable true first_fit_pool [(4128, 16)].
Proof.
  apply (scenario_reachable true 16 6 4096 8192
           [OpAllocate 32; OpAllocate 16; OpDeallocate 4096 32]);
    [unfold valid_config; lia | lia | vm_compute; reflexivity].
Qed.

Lemma stale_hint_pool_reachable :
  reachable true stale_hint_pool [(4096, 1); (4097, 1)].
Proof.
  apply (scenario_reachable true 1 8 4096 8192
           [OpAllocate 1; OpAllocate 1; OpDeallocate 4096 1; OpAllocate 1]);
    [unfold valid_config; lia | lia | vm_compute; reflexivity].
Qed.

Lemma full_stale_pool_reachable :
  reachable true full_stale_pool [(4096, 1); (4097, 1)].
Proof.
  apply (scenario_reachable true 1 2 4096 8192
           [OpAllocate 1; OpAllocate 1; OpDeallocate 4096 1; OpAllocate 1]);
    [unfold valid_config; lia | lia | vm_compute; reflexivity].
Qed.

Lemma full_byte_pool_reachable : reachable true full_byte_pool [(4096, 8)].
Proof.
  apply (scenario_reachable true 1 8 4096 8192 [OpAllocate 8]);
    [unfold valid_config; lia | lia | vm_compute; reflexivity].
Qed.

Lemma full_pool_reachable : reachable true full_pool [(4096, 64)].
Proof.
  apply (scenario_reachable true 16 4 4096 8192 [OpAllocate 64]);
    [unfold valid_config; lia | lia | vm_compute; reflexivity].
Qed.

Lemma fragmented_pool_reachable :
  reachable true fragmented_pool [(4128, 16); (4096, 16)].
Proof.
  apply (scenario_reachable true 16 4 4096 8192
           [OpAllocate 16; OpAllocate 16; OpAllocate 16; OpAllocate 16;
            OpDeallocate 4112 16; OpDeallocate 4144 16]);
    [unfold valid_config; lia | lia | vm_compute; reflexivity].
Qed.

Lemma later_pool_reachable : reachable true later_pool [].
Proof.
  apply (scenario_reachable true 32 2 16384 20480 []);
    [unfold valid_config; lia | lia | vm_compute; reflexivity].
Qed.

(** The fragmented pool has two free blocks and no two adjacent ones. *)
Lemma fragmented_pool_no_pair : ~ has_run fragmented_pool 2.
Proof.
  intros (s & Hs & Hsn & Hrun). change (block_counter fragmented_pool) with 4 in Hsn.
  assert (Hcases : s = 0 \/ s = 1 \/ s = 2) by lia.
  destruct Hcases as [-> | [-> | ->]].
  - specialize (Hrun 0 ltac:(lia)). vm_compute in Hrun. discriminate.
  - specialize (Hrun 2 ltac:(lia)). vm_compute in Hrun. discriminate.
  - specialize (Hrun 2 ltac:(lia)). vm_compute in Hrun. discriminate.
Qed.

Lemma later_pool_has_block : has_run later_pool 1.
Proof.
  exists 0. split; [lia|split; [vm_compute; discriminate|]].
  intros k Hk. assert (k = 0) by lia. subst k. reflexivity.
Qed.

(** The [assert] of [use_blocks] compares [% 2] with [1].  With unsigned
    [char] it fails on every occupied block; with signed [char] it fails
    only while the byte is not negative: once the first block of a byte is
    occupied, [% 2] yields [-1] and the assertion passes on an occupied
    block.  [allocate] never calls [use_blocks] on an occupied block. *)
Lemma use_blocks_assert :
  use_blocks false 0 1 (mkPool 16 8 5 3 4096 [224]) = AssertFail /\
  use_blocks true 1 1 (mkPool 16 8 7 0 4096 [64]) = AssertFail /\
  use_blocks true 0 1 pool_after_allocate = Ok tt (mkPool 16 8 4 3 4096 [-32]).
Proof. repeat split; vm_compute; reflexivity. Qed.

(** C1 at [Pool(16, 8)] after [allocate(33)]: five free blocks. *)
Lemma free_count_matches_bitmap_witness :
  reachable true pool_after_allocate [(4096, 33)] /\
  blocks_free_num pool_after_allocate
  = zero_bits (used_blocks pool_after_allocate)
              (Z.to_nat (block_counter pool_after_allocate)).
Proof.
  split; [exact pool_after_allocate_reachable|].
  apply (free_count_matches_bitmap true pool_after_allocate [(4096, 33)]).
  exact pool_after_allocate_reachable.
Defined.

(** C2 as stated fails for a request of zero bytes on a pool of one-byte
    blocks: [allocate(0)] succeeds with the address of block 1, the hint,
    which is an occupied block and not the start of the lowest-indexed run
    of [ceil(0 / 1) = 0] free blocks. *)
Lemma first_fit_fails_for_zero_bytes :
  reachable true stale_hint_pool [(4096, 1); (4097, 1)] /\
  allocate true 0 stale_hint_pool = Ok 4097 stale_hint_pool /\
  4097 <> 0 /\
  used (used_blocks stale_hint_pool) 1 = true /\
  ~ (exists s,
       4097 = mem_pointer stale_hint_pool + s * block_size stale_hint_pool /\
       lowest_run stale_hint_pool (ceil_div 0 (block_size stale_hint_pool)) s).
Proof.
  split; [exact stale_hint_pool_reachable|].
  split; [vm_compute; reflexivity|]. split; [discriminate|].
  split; [vm_compute; reflexivity|].
  intros (s & Hs & _ & _ & _ & Hlow).
  change (mem_pointer stale_hint_pool) with 4096 in Hs.
  change (block_size stale_hint_pool) with 1 in Hs, Hlow.
  change (ceil_div 0 1) with 0 in Hlow.
  apply (Hlow 0); [lia|]. intros k Hk. lia.
Qed.

(** C2, amended, at the pool [free, free, occupied, free, free, free] and a
    request of 32 bytes (2 blocks): the run at block 0 is returned. *)
Lemma allocate_first_fit_witness :
  reachable true first_fit_pool [(4128, 16)] /\
  1 <= 32 < size_t_mod /\
  allocate true 32 first_fit_pool = Ok 4096 (mkPool 16 6 3 2 4096 [-32]) /\
  4096 <> 0 /\
  exists s,
    4096 = mem_pointer first_fit_pool + s * block_size first_fit_pool /\
    lowest_run first_fit_pool (ceil_div 32 (block_size first_fit_pool)) s.
Proof.
  assert (Hb : 1 <= 32 < size_t_mod) by (vm_compute; split; [discriminate|reflexivity]).
  assert (Ha : allocate true 32 first_fit_pool = Ok 4096 (mkPool 16 6 3 2 4096 [-32]))
    by (vm_compute; reflexivity).
  assert (Hp : 4096 <> 0) by discriminate.
  split; [exact first_fit_pool_reachable|]. split; [exact Hb|].
  split; [exact Ha|]. split; [exact Hp|].
  exact (allocate_first_fit true first_fit_pool [(4128, 16)] 32 4096 _
           first_fit_pool_reachable Hb Ha Hp).
Defined.

(** C3 at [Pool(16, 8)] after [allocate(33)]: the hint is 3. *)
Lemma hint_is_lower_bound_witness :
  reachable true pool_after_allocate [(4096, 33)] /\
  (0 <= free_block pool_after_allocate <= block_counter pool_after_allocate /\
   forall k, 0 <= k < free_block pool_after_allocate ->
             used (used_blocks pool_after_allocate) k = true).
Proof.
  split; [exact pool_after_allocate_reachable|].
  exact (proj1 (hint_is_lower_bound true pool_after_allocate [(4096, 33)]
                  pool_after_allocate_reachable)).
Defined.

(** C4 at the scenario of the specification: [Pool(16, 8)], [allocate(33)],
    [deallocate] of the pointer with 33 bytes. *)
Lemma allocate_deallocate_round_trip_witness :
  reachable true fresh_pool [] /\
  0 <= 33 < size_t_mod /\
  allocate true 33 fresh_pool = Ok 4096 pool_after_allocate /\
  4096 <> 0 /\
  exists p'',
    deallocate true 4096 33 pool_after_allocate = Ok tt p'' /\
    blocks_free_num p'' = blocks_free_num fresh_pool.
Proof.
  assert (Hb : 0 <= 33 < size_t_mod) by (vm_compute; split; [discriminate|reflexivity]).
  assert (Ha : allocate true 33 fresh_pool = Ok 4096 pool_after_allocate)
    by (vm_compute; reflexivity).
  assert (Hp : 4096 <> 0) by discriminate.
  split; [exact fresh_pool_reachable|]. split; [exact Hb|].
  split; [exact Ha|]. split; [exact Hp|].
  destruct (allocate_deallocate_round_trip true fresh_pool [] 33 4096 pool_after_allocate
              fresh_pool_reachable Hb Ha Hp) as (p'' & Hd & Hfree & _).
  exists p''. split; [exact Hd|exact Hfree].
Defined.

(** C6 as stated fails on a fully occupied pool of one-byte blocks whose
    hint is below [block_counter]: [allocate(0)] returns a pointer; and on
    a fully occupied pool a byte count that makes the search bound wrap
    reads outside the bitmap. *)
Lemma full_pool_returns_pointer :
  (reachable true full_stale_pool [(4096, 1); (4097, 1)] /\
   blocks_free_num full_stale_pool = 0 /\
   allocate true 0 full_stale_pool = Ok 4097 full_stale_pool /\
   4097 <> 0) /\
  (reachable true full_byte_pool [(4096, 8)] /\
   blocks_free_num full_byte_pool = 0 /\
   allocate true (2 ^ 64 - 1) full_byte_pool = Undefined).
Proof.
  split.
  - split; [exact full_stale_pool_reachable|]. split; [reflexivity|].
    split; [vm_compute; reflexivity|discriminate].
  - split; [exact full_byte_pool_reachable|]. split; [reflexivity|].
    vm_compute; reflexivity.
Qed.

(** C6, amended, at [Pool(16, 4)] fully occupied, alone in its chain, and a
    request of 16 bytes. *)
Lemma exhaustion_is_signalled_witness :
  reachable true full_pool [(4096, 64)] /\
  blocks_free_num full_pool = 0 /\
  allocate true 16 full_pool = Ok 0 full_pool /\
  MemPoolList_allocate true 16 [full_pool] = BadAlloc [full_pool].
Proof.
  assert (Hok : pool_ok full_pool)
    by exact (proj1 (reachable_inv true full_pool _ full_pool_reachable)).
  assert (Hall : Forall (fun q => pool_ok q /\
                   (blocks_free_num q = 0 \/
                    ~ has_run q (number_of_blocks (block_size q) 16))) [full_pool]).
  { constructor; [|constructor]. split; [exact Hok|left; reflexivity]. }
  assert (Hb : 1 <= 16 < size_t_mod) by (vm_compute; split; [discriminate|reflexivity]).
  assert (Hb' : 0 <= 16 < size_t_mod) by (vm_compute; split; [discriminate|reflexivity]).
  assert (Hw : free_block full_pool + number_of_blocks (block_size full_pool) 16
               < size_t_mod) by (vm_compute; reflexivity).
  destruct (exhaustion_is_signalled true full_pool [(4096, 64)] 16 [full_pool] 16
              full_pool_reachable eq_refl Hb Hw Hb' Hall) as (_ & Ha & Hc & _).
  split; [exact full_pool_reachable|]. split; [reflexivity|].
  split; [exact Ha|exact Hc].
Defined.

(** C7 at the chain of a fragmented [Pool(16, 4)] (two free blocks, not
    adjacent: the pre-filter passes, the search fails) and a fresh
    [Pool(32, 2)], for a request of 32 bytes. *)
Lemma chain_falls_back_to_later_pool_witness :
  [fragmented_pool] <> [] /\ 0 <= 32 < size_t_mod /\
  block_fits 32 fragmented_pool = true /\
  ~ has_run fragmented_pool (ceil_div 32 (block_size fragmented_pool)) /\
  has_run later_pool (ceil_div 32 (block_size later_pool)) /\
  exists pointer B',
    MemPoolList_allocate true 32 [fragmented_pool; later_pool]
    = Ok pointer [fragmented_pool; B'] /\
    mem_pointer later_pool <= pointer
    < mem_pointer later_pool + block_size later_pool * block_counter later_pool.
Proof.
  assert (Hne : [fragmented_pool] <> []) by discriminate.
  assert (Hb : 0 <= 32 < size_t_mod) by (vm_compute; split; [discriminate|reflexivity]).
  assert (HokA : pool_ok fragmented_pool)
    by exact (proj1 (reachable_inv true fragmented_pool _ fragmented_pool_reachable)).
  assert (HokB : pool_ok later_pool)
    by exact (proj1 (reachable_inv true later_pool _ later_pool_reachable)).
  assert (HA : ~ has_run fragmented_pool (ceil_div 32 (block_size fragmented_pool)))
    by exact fragmented_pool_no_pair.
  assert (HB : has_run later_pool (ceil_div 32 (block_size later_pool)))
    by exact later_pool_has_block.
  assert (Hearlier : Forall (fun A => pool_ok A /\
                        ~ has_run A (ceil_div 32 (block_size A))) [fragmented_pool]).
  { constructor; [|constructor]. split; [exact HokA|exact HA]. }
  destruct (chain_falls_back_to_later_pool true [fragmented_pool] later_pool [] 32
              Hne Hb Hearlier HokB HB) as (pointer & B' & Hc & _ & _ & _ & Hin).
  split; [exact Hne|]. split; [exact Hb|]. split; [vm_compute; reflexivity|].
  split; [exact HA|]. split; [exact HB|].
  exists pointer, B'. split; [exact Hc|exact Hin].
Defined.

(** C9 at a chain of one pool with the arena [[4096, 4224)], for the
    pointer 100. *)
Lemma chain_deallocate_unowned_is_noop_witness :
  Forall (fun p => 0 <= block_size p /\ 0 <= block_counter p /\ 0 < mem_pointer p)
         [fresh_pool] /\
  Forall (fun p => ~ (mem_pointer p <= 100
                      < mem_pointer p + block_size p * block_counter p)) [fresh_pool] /\
  MemPoolList_deallocate true 100 16 [fresh_pool] = Ok tt [fresh_pool].
Proof.
  assert (Hpools : Forall (fun p => 0 <= block_size p /\ 0 <= block_counter p
                                    /\ 0 < mem_pointer p) [fresh_pool]).
  { constructor; [|constructor]. cbn. lia. }
  assert (Hout : Forall (fun p => ~ (mem_pointer p <= 100
                      < mem_pointer p + block_size p * block_counter p)) [fresh_pool]).
  { constructor; [|constructor]. cbn. lia. }
  split; [exact Hpools|]. split; [exact Hout|].
  exact (proj2 (chain_deallocate_unowned_is_noop true [fresh_pool] 100 16
                  Hpools (or_intror Hout))).
Defined.

(** C10 as stated fails on [Pool(2^63, 2)], whose arena size wraps to 0:
    the block count for zero bytes is 2, not more than [block_counter], and
    [allocate(0)] on the all-free pool returns a pointer. *)
Lemma allocate_zero_returns_pointer :
  Pool_ctor (2 ^ 63) 2 4096 8192 = Ok tt wrapped_arena_pool /\
  2 <= block_size wrapped_arena_pool /\
  number_of_blocks (block_size wrapped_arena_pool) 0 = 2 /\
  block_counter wrapped_arena_pool = 2 /\
  allocate true 0 wrapped_arena_pool = Ok 4096 (mkPool (2 ^ 63) 2 0 2 4096 [-64]) /\
  4096 <> 0 /\
  allocate true 0 wrapped_arena_pool <> Ok 0 wrapped_arena_pool.
Proof.
  split; [vm_compute; reflexivity|]. split; [vm_compute; discriminate|].
  split; [vm_compute; reflexivity|]. split; [reflexivity|].
  assert (Ha : allocate true 0 wrapped_arena_pool
               = Ok 4096 (mkPool (2 ^ 63) 2 0 2 4096 [-64])) by (vm_compute; reflexivity).
  split; [exact Ha|]. split; [discriminate|].
  rewrite Ha. discriminate.
Qed.

(** C10, amended, at [Pool(16, 8)] with every block free, alone in its
    chain. *)
Lemma allocate_zero_bytes_witness :
  zero_ok fresh_pool /\
  block_counter fresh_pool < number_of_blocks (block_size fresh_pool) 0 /\
  allocate true 0 fresh_pool = Ok 0 fresh_pool /\
  MemPoolList_allocate true 0 [fresh_pool] = BadAlloc [fresh_pool].
Proof.
  assert (Hz : zero_ok fresh_pool) by (unfold zero_ok; cbn; lia).
  split; [exact Hz|].
  apply (allocate_zero_bytes true fresh_pool [fresh_pool] Hz).
  constructor; [exact Hz|constructor].
Defined.

(** * Further properties of the pool *)

Lemma reachable_bytes_range cs p l :
  reachable cs p l -> Forall (fun a => 0 <= snd a < size_t_mod) l.
Proof.
  induction 1 as [| p l bytes_ pointer_ p' _ IH Hb _ _ | | p l1 l2 pointer_ bytes_ p' _ IH _].
  - constructor.
  - constructor; [exact Hb|exact IH].
  - assumption.
  - apply Forall_app in IH as [H1 H2]. apply Forall_app. split; [exact H1|].
    inversion H2; assumption.
Qed.



(** X2.  On a pool that satisfies the invariant, [Pool::allocate] never
    throws and never fails the [assert] of [use_blocks]; its only other
    outcome than a return is a read outside the bitmap, and that needs the
    bound [free_block + number_of_blocks] of the search to wrap.  When it
    returns, the invariant still holds, an empty result leaves the pool as
    it was, and a pointer lies in the arena of the pool. *)
Theorem allocate_outcomes cs p bytes_ :
  pool_ok p -> 0 <= bytes_ < size_t_mod ->
  (allocate cs bytes_ p = Undefined /\
   size_t_mod <= free_block p + number_of_blocks (block_size p) bytes_)
  \/ (exists pointer_ p',
        allocate cs bytes_ p = Ok pointer_ p' /\ pool_ok p' /\ same_frame p p' /\
        (pointer_ = 0 -> p' = p) /\
        (pointer_ <> 0 -> in_arena p pointer_ /\ find pointer_ p = true)).
Proof.
  intros Hok Hb.
  pose proof (pool_ok_bounds p Hok) as (Hbs & Hbc & Hbc63 & _).
  pose proof (ok_hint_range p Hok) as Hh. pose proof (ok_mem p Hok) as Hmem.
  pose proof (number_of_blocks_range (block_size p) bytes_) as Hn.
  pose proof size_t_mod_eq as HW.
  destruct (allocate_cases cs p bytes_ Hok Hb)
    as [(Hr & Hgt)|[(Hr & _)|(s & q & Hr & Hs & Hsn & _ & _ & Hframe & _)]].
  - left. split; [exact Hr|].
    destruct (Z_lt_le_dec (free_block p + number_of_blocks (block_size p) bytes_)
                          size_t_mod) as [Hlt|Hge]; [|exact Hge].
    exfalso. assert (Hnull : allocate cs bytes_ p = Ok 0 p).
    { apply allocate_none; try assumption. intros s Hs Hsn. lia. }
    rewrite Hnull in Hr. discriminate.
  - right. exists 0, p. split; [exact Hr|]. split; [exact Hok|].
    split; [apply same_frame_refl|]. split; [reflexivity|]. intros H. contradiction.
  - right. exists (mem_pointer p + s * block_size p), q.
    split; [exact Hr|]. split; [exact (allocate_ok cs p bytes_ _ q Hok Hb Hr)|].
    split; [exact Hframe|]. split; [intros E; nia|]. intros _.
    assert (Hin : in_arena p (mem_pointer p + s * block_size p))
      by (unfold in_arena; nia).
    split; [exact Hin|]. unfold find.
    destruct Hok as [(_ & _ & Hprod) _ _ _ _ _]. rewrite wrap_small by nia.
    unfold in_arena in Hin.
    apply andb_true_iff. split; [apply Z.leb_le|apply Z.ltb_lt]; lia.
Qed.

(** X3.  The search is complete: for a request of at least one byte on a
    pool that satisfies the invariant, [Pool::allocate] returns a pointer
    exactly when the pool has a run of [ceil(bytes / block_size)] free
    blocks. *)
Theorem allocate_succeeds_iff_run cs p bytes_ :
  pool_ok p -> 1 <= bytes_ < size_t_mod ->
  has_run p (ceil_div bytes_ (block_size p)) <->
  exists pointer_ p', allocate cs bytes_ p = Ok pointer_ p' /\ pointer_ <> 0.
Proof.
  intros Hok Hb. pose proof (pool_ok_bounds p Hok) as (Hbs & _).
  pose proof (ok_mem p Hok) as Hmem. pose proof (ok_hint_range p Hok) as Hh.
  split.
  - intros Hrun.
    destruct (pool_accepts cs p bytes_ Hok Hb Hrun) as (_ & s & q & Hr & _ & (Hs & _) & _).
    exists (mem_pointer p + s * block_size p), q. split; [exact Hr|nia].
  - intros (pointer_ & q & Hr & Hne).
    assert (Hb' : 0 <= bytes_ < size_t_mod) by lia.
    pose proof (allocate_cases cs p bytes_ Hok Hb') as Hcases. cbv zeta in Hcases.
    rewrite number_of_blocks_ceil in Hcases by lia.
    destruct Hcases as [(Hr' & _)|[(Hr' & _)|(s & q' & Hr' & Hs & Hsn & Hrun & _)]];
      rewrite Hr' in Hr; try discriminate.
    + injection Hr as <- _. contradiction.
    + exists s. split; [lia|split; [exact Hsn|exact Hrun]].
Qed.

(** X4.  In every pool state reachable by valid use, the bits of the bitmap
    beyond [block_counter] (the padding of the last byte) are clear. *)
Theorem padding_bits_stay_clear cs p l :
  reachable cs p l ->
  forall k, block_counter p <= k -> used (used_blocks p) k = false.
Proof.
  induction 1 as [bs bc m u p Hcfg Hm Hctor
                 | p l bytes_ pointer_ p' Hreach IH Hb Halloc Hptr
                 | p l bytes_ p' Hreach IH Hb Halloc
                 | p l1 l2 pointer_ bytes_ p' Hreach IH Hdealloc]; intros k Hk.
  - apply (Pool_ctor_ok bs bc m u p Hcfg Hm Hctor).
  - destruct (reachable_inv cs p l Hreach) as [Hok _].
    pose proof (pool_ok_bounds p Hok) as (_ & Hbc & _).
    pose proof (ok_hint_range p Hok) as Hh.
    destruct (allocate_cases cs p bytes_ Hok Hb)
      as [(Hr & _)|[(Hr & _)|(s & q & Hr & Hs & Hsn & _ & _ & Hframe & _ & Hbits & _)]];
      rewrite Hr in Halloc; try discriminate.
    + injection Halloc as _ <-. apply IH. exact Hk.
    + injection Halloc as _ <-. destruct Hframe as (_ & Hf2 & _).
      rewrite Hf2 in Hk. rewrite Hbits by lia. rewrite (IH k Hk), orb_false_r.
      apply in_range_false. lia.
  - destruct (reachable_inv cs p l Hreach) as [Hok _].
    rewrite (allocate_null cs p bytes_ p' Hok Hb Halloc) in *. apply IH. exact Hk.
  - destruct (reachable_inv cs p _ Hreach) as [Hok Hlive].
    pose proof (pool_ok_bounds p Hok) as (_ & Hbc & _).
    destruct (live_ok_split p l1 (pointer_, bytes_) l2 Hlive) as (Ha & _).
    destruct (deallocate_live cs p pointer_ bytes_ Hok Ha)
      as (q & Hr & Hframe & _ & Hbits & _).
    rewrite Hr in Hdealloc. injection Hdealloc as <-.
    destruct Hframe as (_ & Hf2 & _). rewrite Hf2 in Hk.
    rewrite Hbits by lia. rewrite (IH k Hk). apply andb_false_r.
Qed.

(** X5.  Released memory can be allocated again: after the release of a
    live allocation of at least one byte, [allocate] of the same byte count
    returns a pointer, and by first fit the pointer is not above the
    released one. *)
Theorem released_blocks_are_reusable cs p l1 pointer_ bytes_ l2 :
  reachable cs p (l1 ++ (pointer_, bytes_) :: l2) -> 1 <= bytes_ ->
  exists p' pointer' p'',
    deallocate cs pointer_ bytes_ p = Ok tt p' /\
    allocate cs bytes_ p' = Ok pointer' p'' /\
    mem_pointer p <= pointer' <= pointer_.
Proof.
  intros Hreach Hpos.
  destruct (reachable_inv cs p _ Hreach) as [Hok Hlive].
  pose proof (reachable_bytes_range cs p _ Hreach) as Hbytes.
  apply Forall_app in Hbytes as [_ Hbytes]. inversion Hbytes as [|? ? Hb _]; subst.
  cbn [snd] in Hb.
  destruct (live_ok_split p l1 (pointer_, bytes_) l2 Hlive) as (Ha & _).
  destruct (deallocate_live cs p pointer_ bytes_ Hok Ha)
    as (q & Hr & Hframe & _ & Hbits & _ & Hok').
  destruct Ha as (Hptr & Hidx & Hn & Hbound & _). cbn [fst snd] in *.
  destruct Hframe as (Hf1 & Hf2 & Hf3 & _).
  pose proof (pool_ok_bounds p Hok) as (Hbs & _).
  set (idx := block_number p pointer_) in *.
  assert (Hceil : number_of_blocks (block_size p) bytes_ = ceil_div bytes_ (block_size q))
    by (rewrite Hf1; apply number_of_blocks_ceil; lia).
  rewrite Hceil in *.
  assert (Hfree : free_run (used_blocks q) idx (ceil_div bytes_ (block_size q))).
  { intros k Hk. rewrite Hbits by lia. apply andb_false_iff. left.
    apply negb_false_iff, in_range_spec. exact Hk. }
  assert (Hrun : has_run q (ceil_div bytes_ (block_size q))).
  { exists idx. split; [exact Hidx|split; [rewrite Hf2; exact Hbound|exact Hfree]]. }
  destruct (pool_accepts cs q bytes_ Hok' ltac:(lia) Hrun)
    as (_ & s & q' & Hr' & _ & (Hs & _ & _ & Hlow) & _).
  exists q, (mem_pointer q + s * block_size q), q'.
  split; [exact Hr|]. split; [exact Hr'|].
  assert (s <= idx).
  { destruct (Z_lt_le_dec idx s) as [Hlt|Hge]; [|exact Hge].
    exfalso. apply (Hlow idx); [lia|exact Hfree]. }
  rewrite Hf1, Hf3, Hptr. nia.
Qed.

(** X6.  [Pool::deallocate] rounds the pointer down to its block: a pointer
    into the inside of block [idx] is released exactly as the address of
    the block, without any check. *)
Theorem deallocate_accepts_interior_pointer cs p idx k bytes_ :
  0 < mem_pointer p -> 0 < block_size p -> 0 <= idx -> 0 <= k < block_size p ->
  idx * block_size p + k < size_t_mod ->
  deallocate cs (mem_pointer p + idx * block_size p + k) bytes_ p
  = deallocate cs (mem_pointer p + idx * block_size p) bytes_ p.
Proof.
  intros Hmem Hbs Hidx Hk Hlt. unfold deallocate.
  destruct (Z.eqb_spec (mem_pointer p + idx * block_size p + k) 0) as [?|_]; [nia|].
  destruct (Z.eqb_spec (mem_pointer p + idx * block_size p) 0) as [?|_]; [nia|].
  destruct (block_size p =? 0); [reflexivity|].
  f_equal.
  replace (mem_pointer p + idx * block_size p + k - mem_pointer p)
    with (k + idx * block_size p) by lia.
  replace (mem_pointer p + idx * block_size p - mem_pointer p)
    with (idx * block_size p) by lia.
  rewrite !wrap_small by nia.
  rewrite Z.div_add, Z.div_mul, Z.div_small by lia. lia.
Qed.

(** X7.  The [assert] of [use_blocks] tests [% 2 != 1] on the promoted
    [char]: asked to mark a block that is already occupied, [use_blocks]
    aborts when the byte of the block is not negative, and when the byte is
    negative (a signed [char] whose first block is occupied) the assertion
    passes and the block is counted as claimed once more. *)
Theorem use_blocks_assert_depends_on_sign cs p idx n c :
  0 <= idx -> idx < wrap (idx + n) ->
  used_blocks p !! Z.to_nat (idx / kByte) = Some c ->
  in_use c idx = true ->
  (0 <= c -> use_blocks cs idx n p = AssertFail) /\
  (c < 0 -> exists p',
     use_blocks_body cs idx p = Ok tt p' /\
     blocks_free_num p' = wrap (blocks_free_num p - 1) /\
     forall k, 0 <= k -> used (used_blocks p') k = used (used_blocks p) k).
Proof.
  intros Hidx Hloop Hc Hbit.
  pose proof (order_range idx) as Ho.
  assert (Hodd : Z.odd (Z.shiftr c (kByte - 1 - idx mod kByte)) = true).
  { unfold in_use in Hbit. rewrite <- Zodd_rem in Hbit. exact Hbit. }
  split.
  - intros Hpos. unfold use_blocks.
    destruct (Z.to_nat (wrap (idx + n) - idx)) as [|count] eqn:E; [lia|].
    cbn [for_range]. unfold use_blocks_body. rewrite Hc.
    rewrite Zrem_odd, Hodd.
    assert (Hsh : 0 <= Z.shiftr c (kByte - 1 - idx mod kByte))
      by (apply Z.shiftr_nonneg; exact Hpos).
    assert (Hnz : Z.shiftr c (kByte - 1 - idx mod kByte) <> 0)
      by (intros E0; rewrite E0 in Hodd; discriminate).
    rewrite Z.sgn_pos by lia. reflexivity.
  - intros Hneg. unfold use_blocks_body. rewrite Hc.
    rewrite Zrem_odd, Hodd.
    assert (Hsh : Z.shiftr c (kByte - 1 - idx mod kByte) < 0)
      by (apply Z.shiftr_neg; exact Hneg).
    rewrite Z.sgn_neg by lia. cbn [Z.eqb].
    eexists. split; [reflexivity|]. cbn. split; [reflexivity|].
    intros k Hk. rewrite used_set by assumption.
    destruct (Z.eqb_spec k idx) as [->|_]; [|reflexivity].
    cbn [orb]. unfold used. rewrite Hc. symmetry. exact Hbit.
Qed.

Lemma free_loop_out_of_bounds cs count : forall i p,
  0 <= i -> i + Z.of_nat count < size_t_mod ->
  8 * Z.of_nat (length (used_blocks p)) < i + Z.of_nat count ->
  (1 <= count)%nat ->
  for_range count i (free_blocks_body cs) p = Undefined.
Proof.
  induction count as [|count IH]; intros i p Hi Hlt Hout Hcount; [lia|].
  cbn [for_range]. unfold free_blocks_body at 1.
  destruct (used_blocks p !! Z.to_nat (i / kByte)) as [c|] eqn:Hc; [|reflexivity].
  pose proof (lookup_lt_Some _ _ _ Hc) as Hlen.
  assert (Hin : i < 8 * Z.of_nat (length (used_blocks p))).
  { unfold kByte in Hlen. pose proof (Z.div_pos i 8).
    pose proof (Z.div_mod i 8). pose proof (Z.mod_pos_bound i 8). lia. }
  rewrite wrap_small by lia. apply IH; cbn; rewrite ?length_insert; lia.
Qed.

(** X8.  A release of at least one block that runs past the end of the
    bitmap buffer (a pointer beyond the arena, or a byte count too large)
    is not rejected: it clears the bits up to the end of the buffer and
    then reads outside it, which is undefined behaviour. *)
Theorem deallocate_beyond_bitmap_is_undefined cs p pointer_ bytes_ :
  pointer_ <> 0 -> 0 < block_size p ->
  1 <= number_of_blocks (block_size p) bytes_ ->
  block_number p pointer_ + number_of_blocks (block_size p) bytes_ < size_t_mod ->
  8 * Z.of_nat (length (used_blocks p))
    < block_number p pointer_ + number_of_blocks (block_size p) bytes_ ->
  deallocate cs pointer_ bytes_ p = Undefined.
Proof.
  intros Hptr Hbs Hn Hlt Hout. unfold deallocate.
  destruct (Z.eqb_spec pointer_ 0) as [?|_]; [contradiction|].
  destruct (Z.eqb_spec (block_size p) 0) as [?|_]; [lia|].
  fold (number_of_blocks (block_size p) bytes_). fold (block_number p pointer_).
  assert (Hidx : 0 <= block_number p pointer_).
  { unfold block_number. pose proof (wrap_range (pointer_ - mem_pointer p)).
    apply Z.div_pos; lia. }
  unfold free_blocks. rewrite wrap_small by lia.
  rewrite free_loop_out_of_bounds; [reflexivity|exact Hidx|lia|lia|lia].
Qed.

(** X9.  The constructor establishes the invariant: for a valid
    configuration and successful [malloc]s it returns a pool with every
    block free, [blocks_free_num = block_counter], the hint at 0 and a
    bitmap of [ceil(block_counter / 8)] bytes. *)
Theorem constructor_establishes_invariant bs bc m u :
  valid_config bs bc -> 0 < m -> u <> 0 ->
  exists p,
    Pool_ctor bs bc m u = Ok tt p /\ pool_ok p /\
    block_size p = bs /\ block_counter p = bc /\ mem_pointer p = m /\
    blocks_free_num p = bc /\ free_block p = 0 /\
    Z.of_nat (length (used_blocks p)) = ceil_div bc 8 /\
    forall k, used (used_blocks p) k = false.
Proof.
  intros Hcfg Hm Hu.
  assert (Hctor : exists p, Pool_ctor bs bc m u = Ok tt p).
  { unfold Pool_ctor. destruct (Z.eqb_spec m 0) as [?|_]; [lia|].
    destruct (Z.eqb_spec u 0) as [?|_]; [contradiction|]. eexists. reflexivity. }
  destruct Hctor as [p Hctor]. exists p. split; [exact Hctor|].
  destruct (Pool_ctor_ok bs bc m u p Hcfg Hm Hctor)
    as (Hok & Hbs & Hbc & Hh & Hfree & Hmem & Hbits).
  repeat (split; [assumption|]). split; [|exact Hbits].
  rewrite (ok_length p Hok), Hbc. destruct Hcfg as (_ & Hpos & _).
  pose proof (Z.div_pos (bc - 1) 8). rewrite Z2Nat.id by lia.
  unfold ceil_div. replace (bc + 8 - 1) with (bc - 1 + 1 * 8) by lia.
  rewrite Z.div_add by lia. lia.
Qed.

(** X10.  A pool constructed with [block_counter = 0] computes its bitmap
    size as [1 + (0 - 1) / 8] in unsigned arithmetic, [2^61] bytes, and
    never allocates: every request that needs at least one block gets the
    empty result. *)
Theorem zero_block_pool cs bs m u p bytes_ :
  0 < bs -> Pool_ctor bs 0 m u = Ok tt p ->
  number_of_blocks bs bytes_ <> 0 ->
  Z.of_nat (length (used_blocks p)) = 2 ^ 61 /\
  allocate cs bytes_ p = Ok 0 p.
Proof.
  intros Hbs Hctor Hn. unfold Pool_ctor in Hctor.
  destruct (m =? 0); [discriminate|]. destruct (u =? 0); [discriminate|].
  pose proof (f_equal (fun o => match o with Ok _ q => q | _ => p end) Hctor) as Hp.
  cbv beta iota in Hp. clear Hctor. subst p.
  change (wrap (1 + wrap (0 - 1) / kByte)) with (2 ^ 61).
  split.
  - cbn [used_blocks]. rewrite length_replicate. apply Z2Nat.id. discriminate.
  - unfold allocate. cbn [block_size].
    destruct (Z.eqb_spec bs 0) as [?|_]; [lia|].
    fold (number_of_blocks bs bytes_). unfold bind.
    pose proof (number_of_blocks_range bs bytes_) as Hr.
    rewrite get_blocks_exit.
    + cbn [block_counter]. reflexivity.
    + cbn [block_counter free_block]. rewrite Z.add_0_l, wrap_small; lia.
Qed.

(** X11.  While every block from the hint on is free (as on a pool that has
    only allocated so far), [allocate] of a request that fits hands out the
    blocks at the hint, moves the hint past them, and the blocks from the
    new hint on are free again: allocation without release is sequential. *)
Theorem allocation_without_release_is_sequential cs p bytes_ :
  pool_ok p ->
  free_run (used_blocks p) (free_block p) (block_counter p - free_block p) ->
  1 <= bytes_ < size_t_mod ->
  free_block p + ceil_div bytes_ (block_size p) <= block_counter p ->
  exists p',
    allocate cs bytes_ p = Ok (mem_pointer p + free_block p * block_size p) p' /\
    free_block p' = free_block p + ceil_div bytes_ (block_size p) /\
    blocks_free_num p' = blocks_free_num p - ceil_div bytes_ (block_size p) /\
    free_run (used_blocks p') (free_block p') (block_counter p' - free_block p').
Proof.
  intros Hok Htail Hb Hfit.
  pose proof (pool_ok_bounds p Hok) as (Hbs & Hbc & _).
  pose proof (ok_hint_range p Hok) as Hh.
  pose proof (ceil_div_bounds (block_size p) bytes_ Hbs ltac:(lia)) as (Hn1 & _).
  assert (Hb' : 0 <= bytes_ < size_t_mod) by lia.
  assert (Hrun : free_run (used_blocks p) (free_block p) (ceil_div bytes_ (block_size p))).
  { intros k Hk. apply Htail. lia. }
  pose proof (allocate_cases cs p bytes_ Hok Hb') as Hcases. cbv zeta in Hcases.
  rewrite number_of_blocks_ceil in Hcases by lia.
  destruct Hcases
    as [(_ & Hgt)|[(_ & Hnone)|(s & q & Hr & Hs & Hsn & _ & Hnr & Hframe & Hhint & Hbits & _ & Hfree)]].
  - lia.
  - exfalso. apply (Hnone (free_block p)); [lia|exact Hfit|exact Hrun].
  - assert (s = free_block p).
    { destruct (Z.eq_dec s (free_block p)) as [E|E]; [exact E|].
      exfalso. apply (Hnr (free_block p)); [lia|exact Hrun]. }
    subst s. rewrite Z.eqb_refl in Hhint. destruct Hframe as (_ & Hf2 & _).
    exists q. split; [exact Hr|]. split; [exact Hhint|]. split; [exact Hfree|].
    rewrite Hhint, Hf2. intros k Hk. rewrite Hbits by lia.
    apply orb_false_iff. split; [apply in_range_false; lia|apply Htail; lia].
Qed.

(** * Further properties of the chain *)

(** A pointer returned for a request of at least one byte shows a run. *)
Lemma allocate_succeeds_iff_run_aux cs p bytes_ :
  pool_ok p -> 1 <= bytes_ < size_t_mod ->
  (exists pointer_ p', allocate cs bytes_ p = Ok pointer_ p' /\ pointer_ <> 0) ->
  has_run p (ceil_div bytes_ (block_size p)).
Proof.
  intros Hok Hb (pointer_ & q & Hr & Hne).
  pose proof (pool_ok_bounds p Hok) as (Hbs & _).
  pose proof (ok_hint_range p Hok) as Hh.
  assert (Hb' : 0 <= bytes_ < size_t_mod) by lia.
  pose proof (allocate_cases cs p bytes_ Hok Hb') as Hcases. cbv zeta in Hcases.
  rewrite number_of_blocks_ceil in Hcases by lia.
  destruct Hcases as [(Hr' & _)|[(Hr' & _)|(s & q' & Hr' & Hs & Hsn & Hrun & _)]];
    rewrite Hr' in Hr; try discriminate.
  - injection Hr as <- _. contradiction.
  - exists s. split; [lia|split; [exact Hsn|exact Hrun]].
Qed.

(** A request that passes the pre-filter of the chain keeps the bound of
    the search of the pool from wrapping. *)
Lemma block_fits_no_wrap p bytes :
  pool_ok p -> 0 <= bytes < size_t_mod -> block_fits bytes p = true ->
  free_block p + number_of_blocks (block_size p) bytes < size_t_mod.
Proof.
  intros Hok Hb Hfits.
  pose proof (pool_ok_bounds p Hok) as (Hbs & Hbc & Hbc63 & _).
  pose proof (ok_hint_range p Hok) as Hh.
  pose proof (free_num_range p Hok) as Hfree.
  pose proof size_t_mod_eq as HW. pose proof two63.
  apply (block_fits_spec p bytes Hok) in Hfits as [Hle Hne].
  destruct (Z.eq_dec bytes 0) as [->|Hnz].
  - destruct (Z.eq_dec (block_size p) 1) as [E|E].
    + rewrite E. change (number_of_blocks 1 0) with 0. lia.
    + destruct Hok as [(_ & _ & Hprod) _ _ _ _ _].
      pose proof (number_of_blocks_zero (block_size p) (block_counter p)). lia.
  - rewrite number_of_blocks_ceil by lia.
    pose proof (ceil_div_bounds (block_size p) bytes). nia.
Qed.

(** What a pool answers to the chain: the empty result with the pool as it
    was, or a pointer into its arena. *)
Lemma pool_probe cs p bytes :
  pool_ok p -> 0 <= bytes < size_t_mod -> block_fits bytes p = true ->
  allocate cs bytes p = Ok 0 p
  \/ exists s p',
       allocate cs bytes p = Ok (mem_pointer p + s * block_size p) p' /\
       0 <= s < block_counter p /\ same_frame p p' /\ pool_ok p'.
Proof.
  intros Hok Hb Hfits.
  pose proof (block_fits_no_wrap p bytes Hok Hb Hfits) as Hwrap.
  pose proof (ok_hint_range p Hok) as Hh.
  destruct (allocate_cases cs p bytes Hok Hb)
    as [(Hr & Hgt)|[(Hr & _)|(s & q & Hr & Hs & _ & _ & _ & Hframe & _)]].
  - left. apply allocate_none; try assumption. intros s Hs Hsn. lia.
  - left. exact Hr.
  - right. exists s, q. split; [exact Hr|]. split; [lia|]. split; [exact Hframe|].
    exact (allocate_ok cs p bytes _ q Hok Hb Hr).
Qed.

(** The two ways [MemPoolList::allocate] ends on a chain of pools that
    satisfy the invariant. *)
Lemma chain_allocate_cases cs bytes chain :
  Forall pool_ok chain -> 0 <= bytes < size_t_mod ->
  (MemPoolList_allocate cs bytes chain = BadAlloc chain /\
   Forall (declines cs bytes) chain)
  \/ (exists earlier B rest s B',
        chain = earlier ++ B :: rest /\
        MemPoolList_allocate cs bytes chain
        = Ok (mem_pointer B + s * block_size B) (earlier ++ B' :: rest) /\
        Forall (declines cs bytes) earlier /\
        block_fits bytes B = true /\
        allocate cs bytes B = Ok (mem_pointer B + s * block_size B) B' /\
        0 <= s < block_counter B /\ same_frame B B' /\ pool_ok B').
Proof.
  intros Hall Hb. induction Hall as [|p chain Hok Hall IH].
  - left. split; [reflexivity|constructor].
  - cbn [MemPoolList_allocate]. fold (block_fits bytes p).
    assert (Hskip : declines cs bytes p ->
      (lift_state (cons p) (MemPoolList_allocate cs bytes chain) = BadAlloc (p :: chain) /\
       Forall (declines cs bytes) (p :: chain))
      \/ (exists earlier B rest s B',
            p :: chain = earlier ++ B :: rest /\
            lift_state (cons p) (MemPoolList_allocate cs bytes chain)
            = Ok (mem_pointer B + s * block_size B) (earlier ++ B' :: rest) /\
            Forall (declines cs bytes) earlier /\
            block_fits bytes B = true /\
            allocate cs bytes B = Ok (mem_pointer B + s * block_size B) B' /\
            0 <= s < block_counter B /\ same_frame B B' /\ pool_ok B')).
    { intros Hdecl.
      destruct IH as [(Hr & Hd)|(earlier & B & rest & s & B' & -> & Hr & Hd & Hrest)].
      - left. rewrite Hr. split; [reflexivity|constructor; assumption].
      - right. exists (p :: earlier), B, rest, s, B'.
        split; [reflexivity|]. rewrite Hr. split; [reflexivity|].
        split; [constructor; assumption|exact Hrest]. }
    destruct (block_fits bytes p) eqn:Hfits.
    + destruct (pool_probe cs p bytes Hok Hb Hfits)
        as [Hr|(s & q & Hr & Hs & Hframe & Hok')]; rewrite Hr.
      * cbn [Z.eqb negb]. apply Hskip. right. exact Hr.
      * pose proof (ok_mem p Hok) as Hmem.
        pose proof (pool_ok_bounds p Hok) as (Hbs & _).
        destruct (Z.eqb_spec (mem_pointer p + s * block_size p) 0) as [E|_]; [nia|].
        cbn [negb]. right. exists [], p, chain, s, q.
        split; [reflexivity|]. split; [reflexivity|]. split; [constructor|].
        split; [exact Hfits|]. split; [exact Hr|]. split; [exact Hs|].
        split; [exact Hframe|exact Hok'].
    + apply Hskip. left. exact Hfits.
Qed.

(** A pool that the chain passes over for a request of at least one byte
    has no run of free blocks for it. *)
Lemma declines_no_run cs p bytes :
  pool_ok p -> 1 <= bytes < size_t_mod -> declines cs bytes p ->
  ~ has_run p (ceil_div bytes (block_size p)).
Proof.
  intros Hok Hb Hdecl Hrun.
  pose proof (ok_mem p Hok) as Hmem. pose proof (pool_ok_bounds p Hok) as (Hbs & _).
  destruct (pool_accepts cs p bytes Hok Hb Hrun) as (Hfits & s & q & Hr & _ & (Hs & _) & _).
  destruct Hdecl as [Hd|Hd].
  - rewrite Hd in Hfits. discriminate.
  - rewrite Hd in Hr. injection Hr as Hz _. nia.
Qed.

(** X12.  On a chain of pools that satisfy the invariant,
    [MemPoolList::allocate] is safe for every byte count: it never reads
    outside a bitmap and never fails an assertion.  It throws and leaves
    the chain as it was, or it returns a pointer, and then every pool still
    satisfies the invariant and kept its configuration and arena. *)
Theorem chain_allocate_is_safe cs bytes chain :
  Forall pool_ok chain -> 0 <= bytes < size_t_mod ->
  MemPoolList_allocate cs bytes chain = BadAlloc chain
  \/ exists pointer chain',
       MemPoolList_allocate cs bytes chain = Ok pointer chain' /\
       Forall pool_ok chain' /\ Forall2 same_frame chain chain'.
Proof.
  intros Hall Hb.
  destruct (chain_allocate_cases cs bytes chain Hall Hb)
    as [(Hr & _)|(earlier & B & rest & s & B' & -> & Hr & _ & _ & _ & _ & Hframe & Hok')].
  - left. exact Hr.
  - right. eexists _, _. split; [exact Hr|].
    apply Forall_app in Hall as [He Hbr]. inversion Hbr as [|? ? _ Hrest]; subst.
    split.
    + apply Forall_app. split; [exact He|constructor; assumption].
    + apply Forall2_app.
      * apply Forall_Forall2_diag. apply Forall_forall. intros; apply same_frame_refl.
      * constructor; [exact Hframe|].
        apply Forall_Forall2_diag. apply Forall_forall. intros; apply same_frame_refl.
Qed.

(** X13.  For a request of at least one byte, a pointer returned by
    [MemPoolList::allocate] comes from the first pool in chain order that
    has a run of free blocks for the request: it lies in the arena of that
    pool, no earlier pool has such a run, and no other pool changes. *)
Theorem chain_allocate_serves_from_first_fitting_pool cs bytes chain pointer chain' :
  Forall pool_ok chain -> 1 <= bytes < size_t_mod ->
  MemPoolList_allocate cs bytes chain = Ok pointer chain' ->
  exists earlier B rest B',
    chain = earlier ++ B :: rest /\ chain' = earlier ++ B' :: rest /\
    Forall (fun A => ~ has_run A (ceil_div bytes (block_size A))) earlier /\
    has_run B (ceil_div bytes (block_size B)) /\
    allocate cs bytes B = Ok pointer B' /\
    in_arena B pointer.
Proof.
  intros Hall Hb Halloc.
  destruct (chain_allocate_cases cs bytes chain Hall ltac:(lia))
    as [(Hr & _)|(earlier & B & rest & s & B' & -> & Hr & Hd & _ & Ha & Hs & _ & _)];
    rewrite Hr in Halloc; [discriminate|].
  injection Halloc as <- <-.
  apply Forall_app in Hall as [He Hbr]. inversion Hbr as [|? ? HokB _]; subst.
  pose proof (pool_ok_bounds B HokB) as (Hbs & _).
  pose proof (ok_mem B HokB) as Hmem.
  exists earlier, B, rest, B'. split; [reflexivity|]. split; [reflexivity|].
  split; [|split; [|split; [exact Ha|unfold in_arena; nia]]].
  - rewrite Forall_forall in He, Hd. apply Forall_forall. intros A HA.
    apply (declines_no_run cs A bytes (He A HA) Hb (Hd A HA)).
  - apply (allocate_succeeds_iff_run_aux cs B bytes HokB Hb).
    eexists _, _. split; [exact Ha|nia].
Qed.

(** X14.  For a request of at least one byte on a chain of pools that
    satisfy the invariant, [MemPoolList::allocate] throws [std::bad_alloc]
    exactly when no pool of the chain has a run of free blocks for the
    request, and the throw leaves every pool as it was. *)
Theorem chain_allocate_throws_iff_no_run cs bytes chain :
  Forall pool_ok chain -> 1 <= bytes < size_t_mod ->
  (Forall (fun A => ~ has_run A (ceil_div bytes (block_size A))) chain <->
   MemPoolList_allocate cs bytes chain = BadAlloc chain) /\
  (forall chain', MemPoolList_allocate cs bytes chain = BadAlloc chain' -> chain' = chain).
Proof.
  intros Hall Hb.
  destruct (chain_allocate_cases cs bytes chain Hall ltac:(lia))
    as [(Hr & Hd)|(earlier & B & rest & s & B' & -> & Hr & _ & _ & Ha & Hs & _ & _)].
  - split.
    + split; [intros _; exact Hr|]. intros _.
      rewrite Forall_forall in Hall, Hd. apply Forall_forall. intros A HA.
      apply (declines_no_run cs A bytes (Hall A HA) Hb (Hd A HA)).
    + intros chain' H. rewrite Hr in H. injection H as <-. reflexivity.
  - split.
    + split; [|intros H; rewrite Hr in H; discriminate].
      intros Hnone. exfalso.
      apply Forall_app in Hnone as [_ Hnone]. inversion Hnone as [|? ? HnoB _]; subst.
      apply Forall_app in Hall as [_ Hbr]. inversion Hbr as [|? ? HokB _]; subst.
      pose proof (pool_ok_bounds B HokB) as (Hbs & _). pose proof (ok_mem B HokB).
      apply HnoB. apply (allocate_succeeds_iff_run_aux cs B bytes HokB Hb).
      eexists _, _. split; [exact Ha|nia].
    + intros chain' H. rewrite Hr in H. discriminate.
Qed.

(** The release after an allocation on one pool, up to the hint. *)
Lemma pool_round_trip cs p l bytes_ pointer_ p' :
  reachable cs p l -> 0 <= bytes_ < size_t_mod ->
  allocate cs bytes_ p = Ok pointer_ p' -> pointer_ <> 0 ->
  exists p'', deallocate cs pointer_ bytes_ p' = Ok tt p'' /\ same_content p p''.
Proof.
  intros Hreach Hb Halloc Hptr.
  pose proof (reach_allocate cs p l bytes_ pointer_ p' Hreach Hb Halloc Hptr) as Hreach'.
  destruct (reachable_inv cs p l Hreach) as [Hok _].
  destruct (reachable_inv cs p' _ Hreach') as [Hok' Hlive'].
  inversion Hlive' as [|a l0 Ha _ _]; subst.
  pose proof (pool_ok_bounds p Hok) as (Hbs & Hbc & Hbc63 & _).
  pose proof (ok_hint_range p Hok) as Hh.
  destruct (allocate_cases cs p bytes_ Hok Hb)
    as [(Hr & _)|[(Hr & _)|(s & q & Hr & Hs & Hsn & Hrun & _ & Hframe & _ & Hbits & _ & Hfree)]];
    rewrite Hr in Halloc; try discriminate.
  - injection Halloc as <- _. contradiction.
  - injection Halloc as <- <-.
    assert (Hprod : s * block_size p < size_t_mod).
    { destruct Hok as [(_ & _ & Hprod) _ _ _ _ _]. pose proof size_t_mod_eq. nia. }
    pose proof Hframe as (Hf1 & Hf2 & Hf3 & Hf4).
    destruct (deallocate_live cs q _ bytes_ Hok' Ha)
      as (r & Hd & Hframe' & _ & Hbits' & Hfree' & _).
    assert (Hbn : block_number q (mem_pointer p + s * block_size p) = s).
    { rewrite <- Hf1, <- Hf3. apply block_number_pointer; rewrite ?Hf1; lia. }
    rewrite Hbn, Hf1 in Hbits'. rewrite Hf1 in Hfree'.
    exists r. split; [exact Hd|]. split; [|split].
    + exact (same_frame_trans p q r Hframe Hframe').
    + lia.
    + intros k Hk. rewrite Hbits', Hbits by lia.
      destruct (in_range s (number_of_blocks (block_size p) bytes_) k) eqn:E; cbn.
      * apply in_range_spec in E. symmetry. apply Hrun. exact E.
      * reflexivity.
Qed.

Lemma same_content_refl p : same_content p p.
Proof. split; [apply same_frame_refl|split; [reflexivity|intros; reflexivity]]. Qed.

Lemma find_frame p q pointer : same_frame p q -> find pointer q = find pointer p.
Proof. intros (Hf1 & Hf2 & Hf3 & _). unfold find. rewrite Hf1, Hf2, Hf3. reflexivity. Qed.

(** [MemPoolList::deallocate] hands the release to the first pool whose
    [find] claims the pointer. *)
Lemma chain_deallocate_routes cs pointer bytes earlier B rest :
  Forall (fun A => find pointer A = false) earlier -> find pointer B = true ->
  MemPoolList_deallocate cs pointer bytes (earlier ++ B :: rest)
  = lift_state (fun B' => earlier ++ B' :: rest) (deallocate cs pointer bytes B).
Proof.
  intros He HB. induction He as [|A earlier HA _ IH]; cbn [app MemPoolList_deallocate].
  - rewrite HB. reflexivity.
  - rewrite HA, IH, lift_state_compose. reflexivity.
Qed.

(** X15.  Round trip through the chain: on a chain of pools in reachable
    states whose arenas are pairwise disjoint, [MemPoolList::deallocate] of
    a pointer that [MemPoolList::allocate] returned, with the same byte
    count, returns and leaves every pool with the configuration, the free
    count and the occupancy of every block it had before the allocation. *)
Theorem chain_allocate_deallocate_round_trip cs bytes chain pointer chain' :
  Forall (fun p => exists l, reachable cs p l) chain -> arenas_disjoint chain ->
  0 <= bytes < size_t_mod ->
  MemPoolList_allocate cs bytes chain = Ok pointer chain' ->
  exists chain'',
    MemPoolList_deallocate cs pointer bytes chain' = Ok tt chain'' /\
    Forall2 same_content chain chain''.
Proof.
  intros Hreach Hdisj Hb Halloc.
  assert (Hall : Forall pool_ok chain).
  { apply Forall_impl with (1 := Hreach). intros p [l Hp].
    exact (proj1 (reachable_inv cs p l Hp)). }
  destruct (chain_allocate_cases cs bytes chain Hall Hb)
    as [(Hr & _)|(earlier & B & rest & s & B' & -> & Hr & _ & _ & Ha & Hs & Hframe & _)];
    rewrite Hr in Halloc; [discriminate|].
  injection Halloc as <- <-.
  apply Forall_app in Hreach as [_ Hbr]. inversion Hbr as [|? ? [l HB] _]; subst.
  pose proof Hall as Hall'.
  apply Forall_app in Hall' as [He Hbr']. inversion Hbr' as [|? ? HokB _]; subst.
  pose proof (pool_ok_bounds B HokB) as (Hbs & Hbc & _).
  pose proof (ok_mem B HokB) as Hmem.
  assert (Hin : in_arena B (mem_pointer B + s * block_size B)) by (unfold in_arena; nia).
  assert (Hne : mem_pointer B + s * block_size B <> 0) by nia.
  destruct (pool_round_trip cs B l bytes _ B' HB Hb Ha Hne) as (B'' & Hd & Hsame).
  assert (Hfind : find (mem_pointer B + s * block_size B) B' = true).
  { rewrite (find_frame B B' _ Hframe). unfold find.
    destruct HokB as [(_ & _ & Hprod) _ _ _ _ _]. pose proof size_t_mod_eq.
    rewrite wrap_small by nia. unfold in_arena in Hin.
    apply andb_true_iff. split; [apply Z.leb_le|apply Z.ltb_lt]; lia. }
  assert (Hearlier : Forall (fun A => find (mem_pointer B + s * block_size B) A = false) earlier).
  { apply Forall_forall. intros A HA.
    apply list_elem_of_lookup in HA as [i Hi].
    rewrite Forall_forall in He.
    assert (HokA : pool_ok A) by (apply He; apply list_elem_of_lookup; eauto).
    pose proof (pool_ok_bounds A HokA) as (HbsA & HbcA & _).
    apply find_false; [lia|lia|]. intros HinA.
    pose proof (lookup_lt_Some _ _ _ Hi) as Hlt.
    apply (Hdisj i (length earlier) A B (mem_pointer B + s * block_size B)).
    - lia.
    - rewrite lookup_app_l by exact Hlt. exact Hi.
    - rewrite list_lookup_middle; reflexivity.
    - exact HinA.
    - exact Hin. }
  exists (earlier ++ B'' :: rest).
  rewrite (chain_deallocate_routes cs _ bytes earlier B' rest Hearlier Hfind), Hd.
  split; [reflexivity|].
  apply Forall2_app.
  - apply Forall_Forall2_diag. apply Forall_forall. intros; apply same_content_refl.
  - constructor; [exact Hsame|].
    apply Forall_Forall2_diag. apply Forall_forall. intros; apply same_content_refl.
Qed.

(** * The constructor of the chain *)

Lemma walk_forward store : forall idxs ps prev f,
  linked store prev idxs ps ->
  chain_from (length idxs + f) store (List.hd_error idxs) = Some ps.
Proof.
  induction idxs as [|i idxs IH]; intros [|p ps] prev f Hl; cbn in Hl; try contradiction.
  - destruct f; reflexivity.
  - destruct Hl as [Hi Hl]. cbn [List.hd_error length Nat.add chain_from].
    rewrite Hi. cbn [pool_state next_pool]. rewrite (IH ps (Some i) f Hl). reflexivity.
Qed.

Lemma walk_backward store : forall idxs a ps prev f,
  linked store prev (idxs ++ [a]) ps ->
  chain_back (S (length idxs) + f) store (Some a)
  = option_map (app (rev ps)) (chain_back f store prev).
Proof.
  induction idxs as [|i idxs IH]; intros a [|p ps] prev f Hl; cbn in Hl; try contradiction.
  - destruct Hl as [Ha Hl]. destruct ps; [|contradiction].
    cbn [length Nat.add chain_back]. rewrite Ha. cbn [pool_state prev_pool].
    destruct (chain_back f store prev); reflexivity.
  - destruct Hl as [Hi Hl].
    replace (S (length (i :: idxs)) + f)%nat with (S (length idxs) + S f)%nat by (cbn; lia).
    rewrite (IH a ps (Some i) (S f) Hl). cbn [chain_back]. rewrite Hi.
    cbn [pool_state prev_pool].
    destruct (chain_back f store prev); cbn; [|reflexivity].
    rewrite <- app_assoc. reflexivity.
Qed.

Lemma linked_app store nd : forall idxs ps prev,
  linked store prev idxs ps -> linked (store ++ [nd]) prev idxs ps.
Proof.
  induction idxs as [|i idxs IH]; intros [|p ps] prev Hl; cbn in *; try contradiction.
  - exact I.
  - destruct Hl as [Hi Hl]. split; [|apply IH; exact Hl].
    apply lookup_app_l_Some. exact Hi.
Qed.

Lemma linked_length store : forall idxs ps prev,
  linked store prev idxs ps -> length idxs = length ps.
Proof.
  induction idxs as [|i idxs IH]; intros [|p ps] prev Hl; cbn in *; try contradiction.
  - reflexivity.
  - destruct Hl as [_ Hl]. f_equal. exact (IH ps (Some i) Hl).
Qed.

(** Linking the object [c] after the last object [a] of a linked sequence. *)
Lemma link_spec store c pc pv : forall idxs ps prev a pa,
  linked store prev (idxs ++ [a]) (ps ++ [pa]) -> length idxs = length ps ->
  a ∉ idxs -> c ∉ idxs -> c <> a ->
  store !! c = Some (mkNode pc None pv) ->
  exists store',
    bind (set_next_pool a (Some c)) (fun _ => set_prev_pool c (Some a)) store
    = Ok tt store' /\
    linked store' prev (idxs ++ [a; c]) (ps ++ [pa; pc]) /\
    length store' = length store /\
    (forall j, j <> a -> j <> c -> store' !! j = store !! j).
Proof.
  induction idxs as [|i idxs IH]; intros [|p ps] prev a pa Hl Hlen Ha Hc Hca Hstore;
    cbn in Hlen; try discriminate.
  - cbn in Hl. destruct Hl as [Hla _].
    unfold bind, set_next_pool. rewrite Hla. cbn [pool_state prev_pool].
    unfold set_prev_pool. rewrite list_lookup_insert_ne by congruence. rewrite Hstore.
    cbn [pool_state next_pool].
    eexists. split; [reflexivity|]. split; [|split].
    + cbn. split.
      * rewrite list_lookup_insert_ne by congruence.
        apply list_lookup_insert_eq. exact (lookup_lt_Some _ _ _ Hla).
      * split; [|exact I]. apply list_lookup_insert_eq.
        rewrite length_insert. exact (lookup_lt_Some _ _ _ Hstore).
    + rewrite !length_insert. reflexivity.
    + intros j Hja Hjc. rewrite !list_lookup_insert_ne by congruence. reflexivity.
  - cbn [app] in Hl. cbn [linked] in Hl. destruct Hl as [Hi Hl].
    apply not_elem_of_cons in Ha as [Hai Ha]. apply not_elem_of_cons in Hc as [Hci Hc].
    destruct (IH ps (Some i) a pa Hl ltac:(lia) Ha Hc Hca Hstore)
      as (store' & Hr & Hl' & Hlen' & Hsame).
    exists store'. split; [exact Hr|]. split; [|split; [exact Hlen'|exact Hsame]].
    cbn [app linked]. split; [|exact Hl'].
    rewrite Hsame by congruence. rewrite Hi. f_equal. f_equal.
    destruct idxs; reflexivity.
Qed.

Lemma new_Pool_spec mallocs bs bc store :
  fst (mallocs (length store)) <> 0 -> snd (mallocs (length store)) <> 0 ->
  exists p,
    Pool_ctor bs bc (fst (mallocs (length store))) (snd (mallocs (length store))) = Ok tt p /\
    new_Pool mallocs bs bc store = Ok (length store) (store ++ [mkNode p None None]).
Proof.
  intros Hm Hu. unfold new_Pool, Pool_ctor.
  destruct (Z.eqb_spec (fst (mallocs (length store))) 0) as [?|_]; [contradiction|].
  destruct (Z.eqb_spec (snd (mallocs (length store))) 0) as [?|_]; [contradiction|].
  eexists. split; reflexivity.
Qed.

Lemma elem_of_snoc {A : Type} (l : list A) (a : A) : a ∈ l ++ [a].
Proof. apply elem_of_app. right. apply list_elem_of_singleton. reflexivity. Qed.

Lemma elem_of_snoc_init {A : Type} (l : list A) (a x : A) : x ∈ l -> x ∈ l ++ [a].
Proof. intros H. apply elem_of_app. left. exact H. Qed.

(** The loop of the constructor on the configurations after the first:
    every one but the last gets a new object linked after the previous
    one; the last is passed over. *)
Lemma ctor_loop_spec mallocs size lastc pt : forall middles counter a store idxs ps pa,
  size = counter + Z.of_nat (length middles) + 1 -> 1 <= counter -> size < size_t_mod ->
  Z.of_nat (length store) = counter + 1 ->
  (forall k, Z.of_nat k < size -> fst (mallocs k) <> 0 /\ snd (mallocs k) <> 0) ->
  linked store None (idxs ++ [a]) (ps ++ [pa]) ->
  (forall i, i ∈ idxs ++ [a] -> i <> 1%nat /\ (i < length store)%nat) ->
  NoDup (idxs ++ [a]) ->
  store !! 1%nat = Some (mkNode pt None None) ->
  exists store' idxs' a' pms,
    ctor_loop mallocs size (middles ++ [lastc]) counter a a store = Ok (a', a') store' /\
    linked store' None (idxs' ++ [a']) ((ps ++ [pa]) ++ pms) /\
    (forall i, i ∈ idxs' ++ [a'] -> i <> 1%nat /\ (i < length store')%nat) /\
    NoDup (idxs' ++ [a']) /\
    store' !! 1%nat = Some (mkNode pt None None) /\
    length store' = (length store + length middles)%nat /\
    Forall2 (constructed_from mallocs) middles pms /\
    List.hd_error (idxs' ++ [a']) = List.hd_error (idxs ++ [a]).
Proof.
  induction middles as [|cfg middles IH];
    intros counter a store idxs ps pa Hsize Hc HW Hlen Hm Hl Hidx Hnd Htail.
  - cbn [app ctor_loop length] in *.
    rewrite (wrap_small (size - 1)) by lia.
    destruct (Z.eqb_spec counter (size - 1)) as [_|?]; [|lia].
    rewrite andb_false_r.
    exists store, idxs, a, []. rewrite app_nil_r, Nat.add_0_r.
    repeat split; try assumption; try apply Hidx; try assumption. constructor.
  - cbn [app ctor_loop]. cbn [length] in Hsize.
    rewrite (wrap_small (size - 1)) by lia.
    destruct (Z.eqb_spec counter 0) as [?|_]; [lia|].
    destruct (Z.eqb_spec counter (size - 1)) as [?|_]; [lia|].
    cbn [negb andb]. unfold bind at 1.
    destruct (new_Pool_spec mallocs (fst cfg) (snd cfg) store) as (p & Hp & Hnew);
      [apply Hm; lia|apply Hm; lia|].
    rewrite Hnew.
    set (c := length store). set (store1 := store ++ [mkNode p None None]).
    assert (Hl1 : linked store1 None (idxs ++ [a]) (ps ++ [pa])) by (apply linked_app; exact Hl).
    pose proof (linked_length _ _ _ _ Hl) as Hlen2. rewrite !length_app in Hlen2. cbn in Hlen2.
    assert (Hca : c <> a)
      by (destruct (Hidx a) as [_ ?]; [apply elem_of_snoc|subst c; lia]).
    assert (Hcn : c ∉ idxs).
    { intros Hin. destruct (Hidx c) as [_ ?]; [apply elem_of_snoc_init; exact Hin|subst c; lia]. }
    assert (Han : a ∉ idxs).
    { pose proof Hnd as Hnd0. apply NoDup_app in Hnd0 as (_ & Hd & _).
      intros Hin. apply (Hd a Hin). apply list_elem_of_singleton. reflexivity. }
    assert (Hc1 : store1 !! c = Some (mkNode p None None)).
    { subst store1 c. apply list_lookup_middle. reflexivity. }
    destruct (link_spec store1 c p None idxs ps None a pa Hl1 ltac:(lia) Han Hcn Hca Hc1)
      as (store3 & Hr & Hl3 & Hlen3 & Hsame).
    unfold bind in Hr.
    destruct (set_next_pool a (Some c) store1) as [[] store2| | | |] eqn:E2; try discriminate.
    unfold bind at 1. rewrite E2. unfold bind at 1. rewrite Hr.
    assert (Hlen1 : length store1 = S (length store))
      by (subst store1; rewrite length_app; cbn; lia).
    rewrite (wrap_small (counter + 1)) by lia.
    replace (idxs ++ [a; c]) with ((idxs ++ [a]) ++ [c]) in Hl3
      by (rewrite <- app_assoc; reflexivity).
    replace (ps ++ [pa; p]) with ((ps ++ [pa]) ++ [p]) in Hl3
      by (rewrite <- app_assoc; reflexivity).
    destruct (IH (counter + 1) c store3 (idxs ++ [a]) (ps ++ [pa]) p)
      as (store' & idxs' & a' & pms & Hloop & Hl' & Hidx' & Hnd' & Htail' & Hlen' & Hpms & Hhd).
    + lia.
    + lia.
    + exact HW.
    + rewrite Hlen3, Hlen1. lia.
    + exact Hm.
    + exact Hl3.
    + intros i Hi. rewrite Hlen3, Hlen1. apply elem_of_app in Hi as [Hi|Hi].
      * destruct (Hidx i Hi). lia.
      * apply list_elem_of_singleton in Hi. subst i c. lia.
    + apply NoDup_app. split; [exact Hnd|]. split; [|apply NoDup_singleton].
      intros i Hi Hic. apply list_elem_of_singleton in Hic. subst i.
      destruct (Hidx c Hi). subst c. lia.
    + rewrite Hsame; [| |subst c; lia].
      * subst store1. apply lookup_app_l_Some. exact Htail.
      * destruct (Hidx a) as [? _]; [apply elem_of_snoc|congruence].
    + exists store', idxs', a', (p :: pms).
      split; [exact Hloop|]. split.
      { replace ((ps ++ [pa]) ++ p :: pms) with (((ps ++ [pa]) ++ [p]) ++ pms)
          by (rewrite <- !app_assoc; reflexivity). exact Hl'. }
      split; [exact Hidx'|]. split; [exact Hnd'|]. split; [exact Htail'|].
      split; [rewrite Hlen', Hlen3, Hlen1; cbn; lia|].
      split; [constructor; [exists c; exact Hp|exact Hpms]|].
      rewrite Hhd. destruct idxs; reflexivity.
Qed.

(** X16.  The constructor of the chain keeps the order of the
    configuration: for a non-empty configuration list and successful
    [malloc]s it builds one pool per pair, the walk from [head] along
    [next_pool] (the probe order of [allocate]) visits the pools in the
    order of the list, and the walk from [tail] along [prev_pool] visits
    them in the reverse order. *)
Theorem list_constructor_keeps_configuration_order mallocs list_ :
  list_ <> [] -> Z.of_nat (length list_) < size_t_mod ->
  (forall k, (k < length list_)%nat -> fst (mallocs k) <> 0 /\ snd (mallocs k) <> 0) ->
  exists l chain,
    MemPoolList_ctor mallocs list_ = Ok tt l /\
    length (nodes l) = length list_ /\
    chain_of l = Some chain /\
    Forall2 (constructed_from mallocs) list_ chain /\
    chain_back (length (nodes l)) (nodes l) (tail l) = Some (rev chain).
Proof.
  intros Hne HW Hm. destruct list_ as [|first rest]; [contradiction|]. clear Hne.
  destruct (new_Pool_spec mallocs (fst first) (snd first) []) as (p0 & Hp0 & Hnew0);
    [apply Hm; cbn; lia|apply Hm; cbn; lia|].
  destruct rest as [|r rest'].
  - (* one configuration pair: head = tail *)
    unfold MemPoolList_ctor. unfold bind at 1. rewrite Hnew0.
    cbn [length Z.of_nat Pos.of_succ_nat Z.ltb Z.compare Pos.compare Pos.compare_cont].
    unfold bind at 1. unfold bind at 1. cbn [ctor_loop Z.eqb negb andb].
    unfold bind at 1. cbn [app].
    exists (mkMemPoolList [mkNode p0 None None] (Some 0%nat) (Some 0%nat)), [p0].
    split; [reflexivity|]. split; [reflexivity|]. split; [reflexivity|].
    split; [|reflexivity].
    constructor; [exists 0%nat; exact Hp0|constructor].
  - (* at least two pairs *)
    destruct (@exists_last _ (r :: rest') ltac:(discriminate)) as (middles & lastc & Hrest).
    rewrite Hrest in *. clear Hrest r rest'.
    assert (Hlen : Z.of_nat (length (first :: middles ++ [lastc]))
                   = Z.of_nat (length middles) + 2).
    { cbn [length]. rewrite length_app. cbn [length]. lia. }
    assert (Hback : List.last (first :: middles ++ [lastc]) first = lastc).
    { change (first :: middles ++ [lastc]) with ((first :: middles) ++ [lastc]).
      apply List.last_last. }
    assert (Hm' : forall k, Z.of_nat k < Z.of_nat (length middles) + 2 ->
                    fst (mallocs k) <> 0 /\ snd (mallocs k) <> 0)
      by (intros k Hk; apply Hm; lia).
    unfold MemPoolList_ctor. rewrite Hback, Hlen.
    set (size := Z.of_nat (length middles) + 2).
    unfold bind at 1. rewrite Hnew0. cbn [app length].
    destruct (Z.ltb_spec 1 size) as [_|?]; [|subst size; lia].
    destruct (new_Pool_spec mallocs (fst lastc) (snd lastc) [mkNode p0 None None])
      as (pt & Hpt & Hnewt); [apply Hm'; cbn; lia|apply Hm'; cbn; lia|].
    unfold bind at 1. rewrite Hnewt. cbn [app length].
    set (store2 := [mkNode p0 None None; mkNode pt None None]).
    unfold bind at 1. cbn [ctor_loop Z.eqb negb andb].
    change (wrap (0 + 1)) with 1.
    destruct (ctor_loop_spec mallocs size lastc pt middles 1 0%nat store2 [] [] p0)
      as (store' & idxs' & a' & pms & Hloop & Hl' & Hidx' & Hnd' & Htail' & Hlen' & Hpms & Hhd).
    + subst size. lia.
    + lia.
    + subst size. lia.
    + reflexivity.
    + intros k Hk. apply Hm'. subst size. lia.
    + cbn. split; [reflexivity|exact I].
    + intros i Hi. cbn [app] in Hi. apply list_elem_of_singleton in Hi. subst i.
      cbn. split; [discriminate|lia].
    + cbn [app]. apply NoDup_singleton.
    + reflexivity.
    + rewrite Hloop. cbn [snd].
      cbn [app] in Hl', Hhd.
      pose proof (linked_length _ _ _ _ Hl') as Hll.
      assert (Hsplit : exists ps' pa', p0 :: pms = ps' ++ [pa']).
      { destruct (@exists_last _ (p0 :: pms) ltac:(discriminate)) as (ps' & pa' & E).
        exists ps', pa'. exact E. }
      destruct Hsplit as (ps' & pa' & Hps). rewrite Hps in Hl'.
      assert (Hlps : length idxs' = length ps').
      { rewrite Hps in Hll. rewrite !length_app in Hll. cbn in Hll. lia. }
      assert (Ha1 : (1%nat) <> a') by (destruct (Hidx' a') as [? _]; [apply elem_of_snoc|congruence]).
      assert (H1n : (1%nat) ∉ idxs').
      { intros Hin. destruct (Hidx' 1%nat) as [? _]; [apply elem_of_snoc_init; exact Hin|congruence]. }
      assert (Han : a' ∉ idxs').
      { pose proof Hnd' as Hnd0. apply NoDup_app in Hnd0 as (_ & Hd & _).
        intros Hin. apply (Hd a' Hin). apply list_elem_of_singleton. reflexivity. }
      destruct (link_spec store' 1%nat pt None idxs' ps' None a' pa' Hl' Hlps Han H1n Ha1 Htail')
        as (store'' & Hr & Hl'' & Hlen'' & _).
      unfold bind at 1. rewrite Hr.
      exists (mkMemPoolList store'' (Some 0%nat) (Some 1%nat)), (p0 :: pms ++ [pt]).
      assert (Hnodes : length store'' = length (first :: middles ++ [lastc])).
      { rewrite Hlen'', Hlen'. subst store2. cbn [length]. rewrite length_app. cbn. lia. }
      assert (Hchain : ps' ++ [pa'; pt] = p0 :: pms ++ [pt]).
      { change (p0 :: pms ++ [pt]) with ((p0 :: pms) ++ [pt]). rewrite Hps, <- app_assoc.
        reflexivity. }
      assert (Hcount : length (idxs' ++ [a'; 1%nat]) = length store'').
      { rewrite Hnodes. apply Forall2_length in Hpms.
        rewrite length_app, Hlps. cbn [length]. rewrite length_app.
        assert (length (p0 :: pms) = length (ps' ++ [pa'])) by (rewrite Hps; reflexivity).
        rewrite length_app in H. cbn [length] in *. lia. }
      split; [reflexivity|]. split; [exact Hnodes|]. split; [|split].
      * unfold chain_of. cbn [nodes head]. rewrite <- Hchain, <- Hcount.
        rewrite <- (Nat.add_0_r (length (idxs' ++ [a'; 1%nat]))).
        replace (Some 0%nat) with (List.hd_error (idxs' ++ [a'; 1%nat])).
        -- apply (walk_forward store'' _ _ None 0%nat Hl'').
        -- transitivity (List.hd_error (idxs' ++ [a'])); [destruct idxs'; reflexivity|exact Hhd].
      * constructor; [exists 0%nat; exact Hp0|].
        apply Forall2_app; [exact Hpms|].
        constructor; [exists 1%nat; exact Hpt|constructor].
      * cbn [nodes tail]. rewrite <- Hchain, <- Hcount.
        replace (idxs' ++ [a'; 1%nat]) with ((idxs' ++ [a']) ++ [1%nat]) in *
          by (rewrite <- app_assoc; reflexivity).
        rewrite length_app. cbn [length]. rewrite Nat.add_1_r.
        rewrite <- (Nat.add_0_r (S (length (idxs' ++ [a'])))).
        rewrite (walk_backward store'' _ _ _ None 0%nat Hl''). cbn.
        rewrite app_nil_r. reflexivity.
Qed.

(** * The allocator adapter *)

(** X17.  [Allocator_::allocate] multiplies the element count by
    [sizeof(T)] in [size_t] without a check: when [q * sizeof(T) = 2^64],
    a request of [n + q] elements is served as the request of [n] elements
    (the same pools are probed for [n * sizeof(T)] bytes modulo [2^64]). *)
Theorem allocator_count_wraps cs size_of_T q n memory_list :
  q * size_of_T = size_t_mod ->
  Allocator_allocate cs size_of_T (n + q) memory_list
  = MemPoolList_allocate cs (wrap (n * size_of_T)) memory_list.
Proof.
  intros Hq. unfold Allocator_allocate. f_equal. unfold wrap.
  replace ((n + q) * size_of_T) with (n * size_of_T + 1 * size_t_mod) by lia.
  apply Z.mod_add. discriminate.
Qed.

(** * The further properties at concrete pools *)

Lemma fresh_pool_ok : pool_ok fresh_pool.
Proof. exact (proj1 (reachable_inv true fresh_pool _ fresh_pool_reachable)). Qed.

Lemma size_33 : 0 <= 33 < size_t_mod.
Proof. vm_compute. split; [discriminate|reflexivity]. Qed.


(** X2 at [Pool(16, 8)], all free, and 33 bytes. *)
Lemma allocate_outcomes_witness :
  pool_ok fresh_pool /\ 0 <= 33 < size_t_mod /\
  ((allocate true 33 fresh_pool = Undefined /\
    size_t_mod <= free_block fresh_pool + number_of_blocks (block_size fresh_pool) 33)
   \/ (exists pointer_ p',
         allocate true 33 fresh_pool = Ok pointer_ p' /\ pool_ok p' /\
         same_frame fresh_pool p' /\ (pointer_ = 0 -> p' = fresh_pool) /\
         (pointer_ <> 0 -> in_arena fresh_pool pointer_ /\ find pointer_ fresh_pool = true))).
Proof.
  split; [exact fresh_pool_ok|]. split; [exact size_33|].
  exact (allocate_outcomes true fresh_pool 33 fresh_pool_ok size_33).
Defined.

(** X3 at [Pool(16, 8)], all free, and 33 bytes. *)
Lemma allocate_succeeds_iff_run_witness :
  pool_ok fresh_pool /\ 1 <= 33 < size_t_mod /\
  (has_run fresh_pool (ceil_div 33 (block_size fresh_pool)) <->
   exists pointer_ p', allocate true 33 fresh_pool = Ok pointer_ p' /\ pointer_ <> 0).
Proof.
  assert (Hb : 1 <= 33 < size_t_mod) by (vm_compute; split; [discriminate|reflexivity]).
  split; [exact fresh_pool_ok|]. split; [exact Hb|].
  exact (allocate_succeeds_iff_run true fresh_pool 33 fresh_pool_ok Hb).
Defined.

(** X4 at [Pool(16, 6)]: bits 6 and 7 of its byte are padding. *)
Lemma padding_bits_stay_clear_witness :
  reachable true first_fit_pool [(4128, 16)] /\
  forall k, block_counter first_fit_pool <= k -> used (used_blocks first_fit_pool) k = false.
Proof.
  split; [exact first_fit_pool_reachable|].
  exact (padding_bits_stay_clear true first_fit_pool _ first_fit_pool_reachable).
Defined.

(** X5 at [Pool(16, 8)] after [allocate(33)]. *)
Lemma released_blocks_are_reusable_witness :
  reachable true pool_after_allocate ([] ++ (4096, 33) :: []) /\ 1 <= 33 /\
  exists p' pointer' p'',
    deallocate true 4096 33 pool_after_allocate = Ok tt p' /\
    allocate true 33 p' = Ok pointer' p'' /\
    mem_pointer pool_after_allocate <= pointer' <= 4096.
Proof.
  assert (Hpos : 1 <= 33) by discriminate.
  split; [exact pool_after_allocate_reachable|]. split; [exact Hpos|].
  exact (released_blocks_are_reusable true pool_after_allocate [] 4096 33 []
           pool_after_allocate_reachable Hpos).
Defined.

(** X6 at [Pool(16, 8)] after [allocate(33)]: byte 5 of block 0. *)
Lemma deallocate_accepts_interior_pointer_witness :
  0 < mem_pointer pool_after_allocate /\ 0 < block_size pool_after_allocate /\
  0 <= 5 < block_size pool_after_allocate /\
  deallocate true (4096 + 0 * 16 + 5) 33 pool_after_allocate
  = deallocate true (4096 + 0 * 16) 33 pool_after_allocate.
Proof.
  assert (H1 : 0 < mem_pointer pool_after_allocate) by reflexivity.
  assert (H2 : 0 < block_size pool_after_allocate) by reflexivity.
  assert (H3 : 0 <= 0) by discriminate.
  assert (H4 : 0 <= 5 < block_size pool_after_allocate)
    by (split; [discriminate|reflexivity]).
  assert (H5 : 0 * block_size pool_after_allocate + 5 < size_t_mod) by reflexivity.
  split; [exact H1|]. split; [exact H2|]. split; [exact H4|].
  exact (deallocate_accepts_interior_pointer true pool_after_allocate 0 5 33 H1 H2 H3 H4 H5).
Defined.

(** X7 at a pool whose block 1 alone is occupied (byte 64). *)
Lemma use_blocks_assert_depends_on_sign_witness :
  in_use 64 1 = true /\
  use_blocks true 1 1 (mkPool 16 8 7 0 4096 [64]) = AssertFail.
Proof.
  assert (H1 : 0 <= 1) by discriminate.
  assert (H2 : 1 < wrap (1 + 1)) by reflexivity.
  assert (H3 : used_blocks (mkPool 16 8 7 0 4096 [64]) !! Z.to_nat (1 / kByte) = Some 64)
    by reflexivity.
  assert (H4 : in_use 64 1 = true) by reflexivity.
  assert (H5 : 0 <= 64) by discriminate.
  split; [exact H4|].
  exact (proj1 (use_blocks_assert_depends_on_sign true (mkPool 16 8 7 0 4096 [64]) 1 1 64
                  H1 H2 H3 H4) H5).
Defined.

(** X8 at [Pool(16, 8)]: the address one past the arena. *)
Lemma deallocate_beyond_bitmap_is_undefined_witness :
  4224 <> 0 /\ 0 < block_size fresh_pool /\
  block_number fresh_pool 4224 = 8 /\ number_of_blocks (block_size fresh_pool) 16 = 1 /\
  deallocate true 4224 16 fresh_pool = Undefined.
Proof.
  assert (H1 : 4224 <> 0) by discriminate.
  assert (H2 : 0 < block_size fresh_pool) by reflexivity.
  assert (H3 : 1 <= number_of_blocks (block_size fresh_pool) 16) by (vm_compute; discriminate).
  assert (H4 : block_number fresh_pool 4224 + number_of_blocks (block_size fresh_pool) 16
               < size_t_mod) by (vm_compute; reflexivity).
  assert (H5 : 8 * Z.of_nat (length (used_blocks fresh_pool))
               < block_number fresh_pool 4224 + number_of_blocks (block_size fresh_pool) 16)
    by (vm_compute; reflexivity).
  split; [exact H1|]. split; [exact H2|].
  split; [vm_compute; reflexivity|]. split; [vm_compute; reflexivity|].
  exact (deallocate_beyond_bitmap_is_undefined true fresh_pool 4224 16 H1 H2 H3 H4 H5).
Defined.

(** X9 at the configuration [(16, 8)]. *)
Lemma constructor_establishes_invariant_witness :
  valid_config 16 8 /\
  exists p, Pool_ctor 16 8 4096 8192 = Ok tt p /\ pool_ok p /\ blocks_free_num p = 8.
Proof.
  assert (Hm : 0 < 4096) by reflexivity.
  assert (Hu : 8192 <> 0) by discriminate.
  split; [exact valid_config_16_8|].
  destruct (constructor_establishes_invariant 16 8 4096 8192 valid_config_16_8 Hm Hu)
    as (p & Hc & Hok & _ & _ & _ & Hfree & _).
  exists p. split; [exact Hc|split; [exact Hok|exact Hfree]].
Defined.

(** X10 at the configuration [(16, 0)] and a request of one byte. *)
Lemma zero_block_pool_witness :
  exists p,
    Pool_ctor 16 0 4096 8192 = Ok tt p /\
    number_of_blocks 16 1 <> 0 /\
    Z.of_nat (length (used_blocks p)) = 2 ^ 61 /\
    allocate true 1 p = Ok 0 p.
Proof.
  assert (H1 : 0 < 16) by reflexivity.
  assert (H3 : number_of_blocks 16 1 <> 0) by (vm_compute; discriminate).
  eexists. split; [unfold Pool_ctor; cbn [Z.eqb]; reflexivity|].
  split; [exact H3|].
  refine (zero_block_pool true 16 4096 8192 _ 1 H1 _ H3).
  unfold Pool_ctor. cbn [Z.eqb]. reflexivity.
Defined.

Lemma pool_after_allocate_ok : pool_ok pool_after_allocate.
Proof. exact (proj1 (reachable_inv true _ _ pool_after_allocate_reachable)). Qed.

Lemma pool_after_allocate_tail_free :
  free_run (used_blocks pool_after_allocate) (free_block pool_after_allocate)
           (block_counter pool_after_allocate - free_block pool_after_allocate).
Proof.
  intros k Hk. change (free_block pool_after_allocate) with 3 in Hk.
  change (block_counter pool_after_allocate) with 8 in Hk.
  assert (Hcases : k = 3 \/ k = 4 \/ k = 5 \/ k = 6 \/ k = 7) by lia.
  destruct Hcases as [-> | [-> | [-> | [-> | ->]]]]; reflexivity.
Qed.

(** X11 at [Pool(16, 8)] after [allocate(33)]: the next 16 bytes are block
    3, at [4096 + 3 * 16]. *)
Lemma allocation_without_release_is_sequential_witness :
  pool_ok pool_after_allocate /\ 1 <= 16 < size_t_mod /\
  exists p',
    allocate true 16 pool_after_allocate
    = Ok (mem_pointer pool_after_allocate
          + free_block pool_after_allocate * block_size pool_after_allocate) p' /\
    free_block p' = free_block pool_after_allocate
                    + ceil_div 16 (block_size pool_after_allocate).
Proof.
  assert (Hb : 1 <= 16 < size_t_mod) by (vm_compute; split; [discriminate|reflexivity]).
  assert (Hfit : free_block pool_after_allocate
                 + ceil_div 16 (block_size pool_after_allocate)
                 <= block_counter pool_after_allocate) by (vm_compute; discriminate).
  split; [exact pool_after_allocate_ok|]. split; [exact Hb|].
  destruct (allocation_without_release_is_sequential true pool_after_allocate 16
              pool_after_allocate_ok pool_after_allocate_tail_free Hb Hfit)
    as (p' & Ha & Hh & _).
  exists p'. split; [exact Ha|exact Hh].
Defined.

Lemma example_chain_ok : Forall pool_ok [fragmented_pool; later_pool].
Proof.
  constructor; [exact (proj1 (reachable_inv true _ _ fragmented_pool_reachable))|].
  constructor; [exact (proj1 (reachable_inv true _ _ later_pool_reachable))|constructor].
Qed.

Lemma size_32 : 1 <= 32 < size_t_mod.
Proof. vm_compute. split; [discriminate|reflexivity]. Qed.

Lemma size_32' : 0 <= 32 < size_t_mod.
Proof. vm_compute. split; [discriminate|reflexivity]. Qed.

Lemma example_chain_allocate :
  MemPoolList_allocate true 32 [fragmented_pool; later_pool]
  = Ok 16384 [fragmented_pool; mkPool 32 2 1 1 16384 [-128]].
Proof. vm_compute. reflexivity. Qed.

(** X12 at the chain of the fragmented pool and a fresh pool, 32 bytes. *)
Lemma chain_allocate_is_safe_witness :
  Forall pool_ok [fragmented_pool; later_pool] /\ 0 <= 32 < size_t_mod /\
  (MemPoolList_allocate true 32 [fragmented_pool; later_pool]
   = BadAlloc [fragmented_pool; later_pool]
   \/ exists pointer chain',
        MemPoolList_allocate true 32 [fragmented_pool; later_pool] = Ok pointer chain' /\
        Forall pool_ok chain' /\ Forall2 same_frame [fragmented_pool; later_pool] chain').
Proof.
  split; [exact example_chain_ok|]. split; [exact size_32'|].
  exact (chain_allocate_is_safe true 32 _ example_chain_ok size_32').
Defined.

(** X13 at the same chain: the pointer comes from the second pool. *)
Lemma chain_allocate_serves_from_first_fitting_pool_witness :
  Forall pool_ok [fragmented_pool; later_pool] /\ 1 <= 32 < size_t_mod /\
  MemPoolList_allocate true 32 [fragmented_pool; later_pool]
  = Ok 16384 [fragmented_pool; mkPool 32 2 1 1 16384 [-128]] /\
  exists earlier B rest B',
    [fragmented_pool; later_pool] = earlier ++ B :: rest /\
    [fragmented_pool; mkPool 32 2 1 1 16384 [-128]] = earlier ++ B' :: rest /\
    Forall (fun A => ~ has_run A (ceil_div 32 (block_size A))) earlier /\
    has_run B (ceil_div 32 (block_size B)) /\
    allocate true 32 B = Ok 16384 B' /\
    in_arena B 16384.
Proof.
  split; [exact example_chain_ok|]. split; [exact size_32|].
  split; [exact example_chain_allocate|].
  exact (chain_allocate_serves_from_first_fitting_pool true 32 _ 16384 _
           example_chain_ok size_32 example_chain_allocate).
Defined.

(** X14 at the chain of one fully occupied [Pool(16, 4)], 16 bytes. *)
Lemma chain_allocate_throws_iff_no_run_witness :
  Forall pool_ok [full_pool] /\ 1 <= 16 < size_t_mod /\
  (Forall (fun A => ~ has_run A (ceil_div 16 (block_size A))) [full_pool] <->
   MemPoolList_allocate true 16 [full_pool] = BadAlloc [full_pool]).
Proof.
  assert (Hok : Forall pool_ok [full_pool]).
  { constructor; [exact (proj1 (reachable_inv true _ _ full_pool_reachable))|constructor]. }
  assert (Hb : 1 <= 16 < size_t_mod) by (vm_compute; split; [discriminate|reflexivity]).
  split; [exact Hok|]. split; [exact Hb|].
  exact (proj1 (chain_allocate_throws_iff_no_run true 16 [full_pool] Hok Hb)).
Defined.

Lemma example_chain_reachable :
  Forall (fun p => exists l, reachable true p l) [fragmented_pool; later_pool].
Proof.
  constructor; [eexists; exact fragmented_pool_reachable|].
  constructor; [eexists; exact later_pool_reachable|constructor].
Qed.

Lemma example_chain_disjoint : arenas_disjoint [fragmented_pool; later_pool].
Proof.
  intros i j p q addr Hij Hi Hj Hp Hq.
  destruct i as [|[|i]]; destruct j as [|[|j]]; cbn in Hi, Hj; try discriminate;
    try (exfalso; apply Hij; reflexivity);
    injection Hi as <-; injection Hj as <-;
    unfold in_arena in *; cbn in *; lia.
Qed.

(** X15 at the same chain: [allocate(32)], then [deallocate] of the pointer
    with 32 bytes. *)
Lemma chain_allocate_deallocate_round_trip_witness :
  arenas_disjoint [fragmented_pool; later_pool] /\
  MemPoolList_allocate true 32 [fragmented_pool; later_pool]
  = Ok 16384 [fragmented_pool; mkPool 32 2 1 1 16384 [-128]] /\
  exists chain'',
    MemPoolList_deallocate true 16384 32 [fragmented_pool; mkPool 32 2 1 1 16384 [-128]]
    = Ok tt chain'' /\
    Forall2 same_content [fragmented_pool; later_pool] chain''.
Proof.
  split; [exact example_chain_disjoint|]. split; [exact example_chain_allocate|].
  exact (chain_allocate_deallocate_round_trip true 32 _ 16384 _
           example_chain_reachable example_chain_disjoint size_32' example_chain_allocate).
Defined.

Lemma example_mallocs_succeed k :
  fst (example_mallocs k) <> 0 /\ snd (example_mallocs k) <> 0.
Proof. unfold example_mallocs. cbn [fst snd]. lia. Qed.

(** X16 at three configuration pairs. *)
Lemma list_constructor_keeps_configuration_order_witness :
  [(16, 1); (32, 2); (64, 3)] <> [] /\
  exists l chain,
    MemPoolList_ctor example_mallocs [(16, 1); (32, 2); (64, 3)] = Ok tt l /\
    chain_of l = Some chain /\
    Forall2 (constructed_from example_mallocs) [(16, 1); (32, 2); (64, 3)] chain.
Proof.
  assert (Hne : [(16, 1); (32, 2); (64, 3)] <> ([] : list (Z * Z))) by discriminate.
  assert (HW : Z.of_nat (length [(16, 1); (32, 2); (64, 3)]) < size_t_mod) by reflexivity.
  split; [exact Hne|].
  destruct (list_constructor_keeps_configuration_order example_mallocs
              [(16, 1); (32, 2); (64, 3)] Hne HW
              (fun k _ => example_mallocs_succeed k))
    as (l & chain & Hc & _ & Hchain & Hall & _).
  exists l, chain. split; [exact Hc|split; [exact Hchain|exact Hall]].
Defined.

(** X17 for eight-byte elements: [2^61 + 1] elements are served as one. *)
Lemma allocator_count_wraps_witness :
  2 ^ 61 * 8 = size_t_mod /\
  Allocator_allocate true 8 (1 + 2 ^ 61) [fresh_pool]
  = MemPoolList_allocate true (wrap (1 * 8)) [fresh_pool].
Proof.
  assert (Hq : 2 ^ 61 * 8 = size_t_mod) by reflexivity.
  split; [exact Hq|].
  exact (allocator_count_wraps true 8 (2 ^ 61) 1 [fresh_pool] Hq).
Defined.
